(** * Turtle's Adventure: a shallow embedding of [turtle_adventure.py]

    The module under study is a small real-time game: a player turtle walks
    towards a waypoint, enemies of five kinds move by their own rules, and
    an enemy generator spawns waves of enemies from the game level.

    Number model.  Python computes the geometry in binary floating point;
    here coordinates, sizes and speeds are real numbers ([R]) and every
    arithmetic operation is exact.  Integer quantities (the level, the
    canvas size, loop counts, random integers) are [Z]; the ceilings of true
    divisions in the generator ([math.ceil(num/3)]) are taken over [Q].

    Randomness.  [random.randint] and [random.choice] consume one entry of
    an explicit random tape: every update that may draw takes its draws as
    arguments. *)

From Stdlib Require Import ZArith QArith Qround List String Bool Lia.
From Stdlib Require Import Reals Lra.
Import ListNotations.

Local Open Scope R_scope.

(** ** Comparisons on coordinates, as booleans *)

Definition Rltb (a b : R) : bool := if Rlt_dec a b then true else false.
Definition Rleb (a b : R) : bool := if Rle_dec a b then true else false.
Definition Reqb (a b : R) : bool := if Req_dec_T a b then true else false.

(** ** The random tape *)

Module Random.

(** [random.randint(a, b)]: an integer of [a..b]; the draw [r] selects
    which one.  Python raises [ValueError] on an empty range. *)
Definition randint (a b : Z) (r : Z) : option Z :=
  if (b <? a)%Z then None else Some (a + r mod (b - a + 1))%Z.

(** [random.choice([1, 1.1])]. *)
Definition choice_1_or_1_1 (r : Z) : R :=
  if Z.even r then 1 else 11 / 10.

End Random.

(** ** The turtle of Python's [turtle] module

    Only what [Player] uses: a position, a heading, [towards],
    [setheading], [forward] and [distance].  The heading is kept as the
    unit vector [(cos t, sin t)] of the angle [t] that the library stores;
    [towards] of the turtle's own position is angle 0, that is [(1, 0)]. *)

Module Turtle.

Record t := mk { xcor : R; ycor : R; heading : R * R }.

Definition distance (tu : t) (x y : R) : R :=
  sqrt ((x - xcor tu) ^ 2 + (y - ycor tu) ^ 2).

Definition towards (tu : t) (x y : R) : R * R :=
  let d := distance tu x y in
  if Req_dec_T d 0 then (1, 0)
  else ((x - xcor tu) / d, (y - ycor tu) / d).

Definition setheading (tu : t) (h : R * R) : t :=
  mk (xcor tu) (ycor tu) h.

Definition forward (tu : t) (d : R) : t :=
  mk (xcor tu + d * fst (heading tu)) (ycor tu + d * snd (heading tu))
     (heading tu).

End Turtle.

(** ** Game elements and the game *)

Record Waypoint := mkWaypoint {
  wp_x : R;
  wp_y : R;
  is_active : bool
}.

Record Home := mkHome {
  home_x : R;
  home_y : R;
  home_size : R
}.

Record Player := mkPlayer {
  pl_turtle : Turtle.t;
  pl_speed : R
}.

(** The five enemy classes, and an enemy as the generator constructs it:
    class, size and colour. *)
Inductive EnemyKind :=
  | KDemo | KRandomWalk | KChasing | KFencing | KCross.

Record Spawn := mkSpawn {
  sp_kind : EnemyKind;
  sp_size : Z;
  sp_color : string
}.

(** An entry of the game's list of elements.  The waypoint, the home and
    the player are fields of the game; an entry names which of them it
    is, or the enemy that was constructed. *)
Inductive Element :=
  | ElWaypoint
  | ElHome
  | ElPlayer
  | ElEnemy (s : Spawn).

(** A text item of the canvas. *)
Record CanvasText := mkText {
  txt_x : R;
  txt_y : R;
  txt_text : string;
  txt_fill : string
}.

(** What a scheduled callback runs: the bound method and its arguments. *)
Inductive Callback :=
  | CbCreateEnemy
  | CbCreateChasing (num : Q).

Record Task := mkTask {
  task_ms : Z;
  task_callback : Callback
}.

(** The game object every element reaches through [self.game].
    [canvas_width] and [canvas_height] are what [winfo_width()] and
    [winfo_height()] return; [running] is the loop's timer, [texts] the
    text items drawn on the canvas in order of creation, [elements] the
    elements added to the game in order of registration, [timers] the
    callbacks handed to [after]. *)
Record TurtleAdventureGame := mkGame {
  level : Z;
  screen_width : Z;
  screen_height : Z;
  canvas_width : Z;
  canvas_height : Z;
  waypoint : Waypoint;
  home : Home;
  player : Player;
  elements : list Element;
  running : bool;
  texts : list CanvasText;
  timers : list Task
}.

Definition set_waypoint (g : TurtleAdventureGame) (w : Waypoint) :=
  mkGame (level g) (screen_width g) (screen_height g) (canvas_width g)
    (canvas_height g) w (home g) (player g) (elements g) (running g)
    (texts g) (timers g).

Definition set_player (g : TurtleAdventureGame) (p : Player) :=
  mkGame (level g) (screen_width g) (screen_height g) (canvas_width g)
    (canvas_height g) (waypoint g) (home g) p (elements g) (running g)
    (texts g) (timers g).

Definition set_elements (g : TurtleAdventureGame) (l : list Element) :=
  mkGame (level g) (screen_width g) (screen_height g) (canvas_width g)
    (canvas_height g) (waypoint g) (home g) (player g) l (running g)
    (texts g) (timers g).

Definition set_running (g : TurtleAdventureGame) (b : bool) :=
  mkGame (level g) (screen_width g) (screen_height g) (canvas_width g)
    (canvas_height g) (waypoint g) (home g) (player g) (elements g) b
    (texts g) (timers g).

Definition set_texts (g : TurtleAdventureGame) (l : list CanvasText) :=
  mkGame (level g) (screen_width g) (screen_height g) (canvas_width g)
    (canvas_height g) (waypoint g) (home g) (player g) (elements g)
    (running g) l (timers g).

Definition set_timers (g : TurtleAdventureGame) (l : list Task) :=
  mkGame (level g) (screen_width g) (screen_height g) (canvas_width g)
    (canvas_height g) (waypoint g) (home g) (player g) (elements g)
    (running g) (texts g) l.

(** *** The base class [Game] of [gamelib] *)

Module Game.

(** Modelled from the spec: [Game.stop] of [gamelib] is not in the
    sources at hand.  The loop "halts further ticks" once an outcome is
    reached; stopping clears the loop's timer and touches nothing else. *)
Definition stop (g : TurtleAdventureGame) : TurtleAdventureGame :=
  set_running g false.

(** Modelled from the spec: [Game.add_element] of [gamelib] is not in the
    sources at hand.  The game owns "the ordered collection of active
    entities", updated "in entity-registration order"; "every spawned
    enemy is added to the shared active-entity collection immediately
    upon creation". *)
Definition add_element (g : TurtleAdventureGame) (e : Element) :=
  set_elements g (elements g ++ [e]).

(** [after(ms, callback, *args)] of tkinter: one more one-shot timer. *)
Definition after (g : TurtleAdventureGame) (ms : Z) (cb : Callback) :=
  set_timers g (timers g ++ [mkTask ms cb]).

(** [canvas.create_text(x, y, text=..., fill=...)]. *)
Definition create_text (g : TurtleAdventureGame) (x y : R)
    (text fill : string) :=
  set_texts g (texts g ++ [mkText x y text fill]).

End Game.

(** *** [TurtleAdventureGame.game_over_win] and [game_over_lose] *)

Definition game_over_win (g : TurtleAdventureGame) : TurtleAdventureGame :=
  let g := Game.stop g in
  Game.create_text g (IZR (screen_width g) / 2) (IZR (screen_height g) / 2)
    "You Win" "green".

Definition game_over_lose (g : TurtleAdventureGame) : TurtleAdventureGame :=
  let g := Game.stop g in
  Game.create_text g (IZR (screen_width g) / 2) (IZR (screen_height g) / 2)
    "You Lose" "red".

(** ** [Waypoint] *)

Module Waypoint.

Definition activate (w : Waypoint) (x y : R) : Waypoint :=
  mkWaypoint x y true.

Definition deactivate (w : Waypoint) : Waypoint :=
  mkWaypoint (wp_x w) (wp_y w) false.

End Waypoint.

(** ** [Home] *)

Module Home.

Definition contains (h : Home) (x y : R) : bool :=
  let x1 := home_x h - home_size h / 2 in
  let x2 := home_x h + home_size h / 2 in
  let y1 := home_y h - home_size h / 2 in
  let y2 := home_y h + home_size h / 2 in
  (Rleb x1 x && Rleb x x2) && (Rleb y1 y && Rleb y y2).

(** [render]: the corners handed to [canvas.coords] for the home's
    rectangle. *)
Definition render (h : Home) : R * R * R * R :=
  (home_x h - home_size h / 2, home_y h - home_size h / 2,
   home_x h + home_size h / 2, home_y h + home_size h / 2).

End Home.

(** ** [Player] *)

Module Player.

Definition x (p : Player) : R := Turtle.xcor (pl_turtle p).
Definition y (p : Player) : R := Turtle.ycor (pl_turtle p).
Definition speed (p : Player) : R := pl_speed p.

Definition set_turtle (p : Player) (tu : Turtle.t) : Player :=
  mkPlayer tu (pl_speed p).

Definition update (g : TurtleAdventureGame) : TurtleAdventureGame :=
  let g :=
    if Home.contains (home g) (x (player g)) (y (player g))
    then game_over_win g else g in
  let turtle := pl_turtle (player g) in
  let waypoint := waypoint g in
  if is_active waypoint then
    let turtle :=
      Turtle.setheading turtle
        (Turtle.towards turtle (wp_x waypoint) (wp_y waypoint)) in
    let turtle := Turtle.forward turtle (speed (player g)) in
    let g := set_player g (set_turtle (player g) turtle) in
    if Rltb (Turtle.distance turtle (wp_x waypoint) (wp_y waypoint))
            (speed (player g))
    then set_waypoint g (Waypoint.deactivate waypoint)
    else g
  else g.

End Player.

(** ** [Enemy]: the base class of the five variants *)

Record Enemy := mkEnemy {
  en_x : R;
  en_y : R;
  en_size : R;
  en_color : string;
  en_speed : R
}.

Definition set_x (e : Enemy) (v : R) : Enemy :=
  mkEnemy v (en_y e) (en_size e) (en_color e) (en_speed e).

Definition set_y (e : Enemy) (v : R) : Enemy :=
  mkEnemy (en_x e) v (en_size e) (en_color e) (en_speed e).

Definition set_speed (e : Enemy) (v : R) : Enemy :=
  mkEnemy (en_x e) (en_y e) (en_size e) (en_color e) v.

Module Enemy.

Definition hits_player (g : TurtleAdventureGame) (e : Enemy) : bool :=
  (Rltb (en_x e - en_size e / 2) (Player.x (player g))
   && Rltb (Player.x (player g)) (en_x e + en_size e / 2))
  &&
  (Rltb (en_y e - en_size e / 2) (Player.y (player g))
   && Rltb (Player.y (player g)) (en_y e + en_size e / 2)).

(** The tail of every variant's [update]:
    [if self.hits_player(): self.game.game_over_lose()]. *)
Definition check_hit (g : TurtleAdventureGame) (e : Enemy)
    : TurtleAdventureGame :=
  if hits_player g e then game_over_lose g else g.

End Enemy.

(** ** [DemoEnemy]: the patrol that bounces off the screen edges *)

Inductive DemoXState := Sx_move_right | Sx_move_left.
Inductive DemoYState := Sy_move_down | Sy_move_up.

Record DemoEnemy := mkDemo {
  de_base : Enemy;
  de_x_state : DemoXState;
  de_y_state : DemoYState
}.

Module DemoEnemy.

Definition check_x_border (g : TurtleAdventureGame) (e : DemoEnemy) : bool :=
  if Rltb (en_x (de_base e)) 0
     || Rltb (IZR (canvas_width g)) (en_x (de_base e))
  then true else false.

Definition check_y_border (g : TurtleAdventureGame) (e : DemoEnemy) : bool :=
  if Rltb (en_y (de_base e)) 0
     || Rltb (IZR (canvas_height g)) (en_y (de_base e))
  then true else false.

Definition state_move_right (g : TurtleAdventureGame) (e : DemoEnemy)
    (r : Z) : DemoEnemy :=
  let b := de_base e in
  let e := mkDemo (set_x b (en_x b + en_speed b))
             (de_x_state e) (de_y_state e) in
  if check_x_border g e then
    let b := de_base e in
    mkDemo (set_speed b (en_speed b * Random.choice_1_or_1_1 r))
      Sx_move_left (de_y_state e)
  else e.

Definition state_move_left (g : TurtleAdventureGame) (e : DemoEnemy)
    (r : Z) : DemoEnemy :=
  let b := de_base e in
  let e := mkDemo (set_x b (en_x b - en_speed b))
             (de_x_state e) (de_y_state e) in
  if check_x_border g e then
    let b := de_base e in
    mkDemo (set_speed b (en_speed b * Random.choice_1_or_1_1 r))
      Sx_move_right (de_y_state e)
  else e.

Definition state_move_down (g : TurtleAdventureGame) (e : DemoEnemy)
    (r : Z) : DemoEnemy :=
  let b := de_base e in
  let e := mkDemo (set_y b (en_y b + en_speed b))
             (de_x_state e) (de_y_state e) in
  if check_y_border g e then
    let b := de_base e in
    mkDemo (set_speed b (en_speed b * Random.choice_1_or_1_1 r))
      (de_x_state e) Sy_move_up
  else e.

Definition state_move_up (g : TurtleAdventureGame) (e : DemoEnemy)
    (r : Z) : DemoEnemy :=
  let b := de_base e in
  let e := mkDemo (set_y b (en_y b - en_speed b))
             (de_x_state e) (de_y_state e) in
  if check_y_border g e then
    let b := de_base e in
    mkDemo (set_speed b (en_speed b * Random.choice_1_or_1_1 r))
      (de_x_state e) Sy_move_down
  else e.

(** Calling the bound method held in [__x_state], resp. [__y_state]. *)
Definition x_state (g : TurtleAdventureGame) (e : DemoEnemy) (r : Z) :=
  match de_x_state e with
  | Sx_move_right => state_move_right g e r
  | Sx_move_left => state_move_left g e r
  end.

Definition y_state (g : TurtleAdventureGame) (e : DemoEnemy) (r : Z) :=
  match de_y_state e with
  | Sy_move_down => state_move_down g e r
  | Sy_move_up => state_move_up g e r
  end.

(** [rx] and [ry] are the draws available to the x step and to the y
    step; a step that does not bounce leaves its draw unused. *)
Definition update (g : TurtleAdventureGame) (e : DemoEnemy) (rx ry : Z)
    : DemoEnemy * TurtleAdventureGame :=
  let e := x_state g e rx in
  let e := y_state g e ry in
  (e, Enemy.check_hit g (de_base e)).

(** [render]: the corners handed to [canvas.coords] for the oval. *)
Definition render (e : DemoEnemy) : R * R * R * R :=
  let b := de_base e in
  (en_x b - en_size b / 2, en_y b - en_size b / 2,
   en_x b + en_size b / 2, en_y b + en_size b / 2).

(** The enemy after [__init__] and [create]: at the origin of a fresh
    element, moving right and down, with a speed of [randint(1, 5)]. *)
Definition created (size : R) (color : string) (r : Z) : option DemoEnemy :=
  match Random.randint 1 5 r with
  | None => None
  | Some v =>
      Some (mkDemo (mkEnemy 0 0 size color (IZR v))
              Sx_move_right Sy_move_down)
  end.

End DemoEnemy.

(** ** [RandomWalkEnemy] *)

Record RandomWalkEnemy := mkRandomWalk {
  rw_base : Enemy;
  rw_destination : Z * Z
}.

Module RandomWalkEnemy.

Definition gen_dest (g : TurtleAdventureGame) (r1 r2 : Z) : option (Z * Z) :=
  match Random.randint 0 (canvas_width g) r1 with
  | None => None
  | Some dx =>
      match Random.randint 0 (canvas_height g) r2 with
      | None => None
      | Some dy => Some (dx, dy)
      end
  end.

Definition update_x (e : RandomWalkEnemy) : RandomWalkEnemy :=
  let b := rw_base e in
  let d := IZR (fst (rw_destination e)) in
  if Rltb (en_x b) d
  then mkRandomWalk (set_x b (en_x b + Rmin (en_speed b) (d - en_x b)))
         (rw_destination e)
  else mkRandomWalk (set_x b (en_x b - Rmin (en_speed b) (en_x b - d)))
         (rw_destination e).

Definition update_y (e : RandomWalkEnemy) : RandomWalkEnemy :=
  let b := rw_base e in
  let d := IZR (snd (rw_destination e)) in
  if Rltb (en_y b) d
  then mkRandomWalk (set_y b (en_y b + Rmin (en_speed b) (d - en_y b)))
         (rw_destination e)
  else mkRandomWalk (set_y b (en_y b - Rmin (en_speed b) (en_y b - d)))
         (rw_destination e).

(** Has the enemy arrived: the guard of [update]. *)
Definition arrived (e : RandomWalkEnemy) : bool :=
  Reqb (IZR (fst (rw_destination e))) (en_x (rw_base e))
  && Reqb (IZR (snd (rw_destination e))) (en_y (rw_base e)).

(** [None] is the [ValueError] of [gen_dest] on a canvas of negative
    width or height. *)
Definition update (g : TurtleAdventureGame) (e : RandomWalkEnemy)
    (r1 r2 : Z) : option (RandomWalkEnemy * TurtleAdventureGame) :=
  let retarget :=
    if arrived e then
      match gen_dest g r1 r2 with
      | None => None
      | Some d => Some (mkRandomWalk (rw_base e) d)
      end
    else Some e in
  match retarget with
  | None => None
  | Some e =>
      let e := update_x e in
      let e := update_y e in
      Some (e, Enemy.check_hit g (rw_base e))
  end.

Definition render (e : RandomWalkEnemy) : R * R * R * R :=
  let b := rw_base e in
  (en_x b - en_size b / 2, en_y b - en_size b / 2,
   en_x b + en_size b / 2, en_y b + en_size b / 2).

(** The enemy after [__init__], which draws the first destination, and
    [create], which draws the speed and the position. *)
Definition created (g : TurtleAdventureGame) (size : R) (color : string)
    (r1 r2 r3 r4 r5 : Z) : option RandomWalkEnemy :=
  match gen_dest g r1 r2 with
  | None => None
  | Some d =>
      match Random.randint 1 5 r3 with
      | None => None
      | Some v =>
          match Random.randint 0 (canvas_width g) r4 with
          | None => None
          | Some x =>
              match Random.randint 0 (canvas_height g) r5 with
              | None => None
              | Some y =>
                  Some (mkRandomWalk
                          (mkEnemy (IZR x) (IZR y) size color (IZR v)) d)
              end
          end
      end
  end.

End RandomWalkEnemy.

(** ** [ChasingEnemy] *)

Record ChasingEnemy := mkChasing {
  ch_base : Enemy;
  ch_player_loc : R * R
}.

Module ChasingEnemy.

Definition gen_player_loc (g : TurtleAdventureGame) : R * R :=
  (Player.x (player g), Player.y (player g)).

Definition update_x (e : ChasingEnemy) : ChasingEnemy :=
  let b := ch_base e in
  let d := fst (ch_player_loc e) in
  if Rltb (en_x b) d
  then mkChasing (set_x b (en_x b + Rmin (en_speed b) (d - en_x b)))
         (ch_player_loc e)
  else mkChasing (set_x b (en_x b - Rmin (en_speed b) (en_x b - d)))
         (ch_player_loc e).

Definition update_y (e : ChasingEnemy) : ChasingEnemy :=
  let b := ch_base e in
  let d := snd (ch_player_loc e) in
  if Rltb (en_y b) d
  then mkChasing (set_y b (en_y b + Rmin (en_speed b) (d - en_y b)))
         (ch_player_loc e)
  else mkChasing (set_y b (en_y b - Rmin (en_speed b) (en_y b - d)))
         (ch_player_loc e).

Definition update (g : TurtleAdventureGame) (e : ChasingEnemy)
    : ChasingEnemy * TurtleAdventureGame :=
  let e := mkChasing (ch_base e) (gen_player_loc g) in
  let e := update_x e in
  let e := update_y e in
  (e, Enemy.check_hit g (ch_base e)).

Definition render (e : ChasingEnemy) : R * R * R * R :=
  let b := ch_base e in
  (en_x b - en_size b / 2, en_y b - en_size b / 2,
   en_x b + en_size b / 2, en_y b + en_size b / 2).

End ChasingEnemy.

(** ** [FencingEnemy]: the guard that walks around the home *)

Inductive FencingState :=
  | Sf_move_right | Sf_move_up | Sf_move_left | Sf_move_down.

Record FencingEnemy := mkFencing {
  fe_base : Enemy;
  fe_state : FencingState
}.

Module FencingEnemy.

Definition move_right_state (g : TurtleAdventureGame) (e : FencingEnemy) :=
  let b := fe_base e in
  if Rltb (en_x b) (home_x (home g) + 20)
  then mkFencing (set_x b (en_x b + en_speed b)) (fe_state e)
  else mkFencing b Sf_move_up.

Definition move_left_state (g : TurtleAdventureGame) (e : FencingEnemy) :=
  let b := fe_base e in
  if Rltb (home_x (home g) - 20) (en_x b)
  then mkFencing (set_x b (en_x b - en_speed b)) (fe_state e)
  else mkFencing b Sf_move_down.

Definition move_up_state (g : TurtleAdventureGame) (e : FencingEnemy) :=
  let b := fe_base e in
  if Rltb (home_y (home g) - 20) (en_y b)
  then mkFencing (set_y b (en_y b - en_speed b)) (fe_state e)
  else mkFencing b Sf_move_left.

Definition move_down_state (g : TurtleAdventureGame) (e : FencingEnemy) :=
  let b := fe_base e in
  if Rltb (en_y b) (home_y (home g) + 20)
  then mkFencing (set_y b (en_y b + en_speed b)) (fe_state e)
  else mkFencing b Sf_move_right.

Definition state (g : TurtleAdventureGame) (e : FencingEnemy) :=
  match fe_state e with
  | Sf_move_right => move_right_state g e
  | Sf_move_up => move_up_state g e
  | Sf_move_left => move_left_state g e
  | Sf_move_down => move_down_state g e
  end.

Definition update (g : TurtleAdventureGame) (e : FencingEnemy)
    : FencingEnemy * TurtleAdventureGame :=
  let e := state g e in
  (e, Enemy.check_hit g (fe_base e)).

Definition render (e : FencingEnemy) : R * R * R * R :=
  let b := fe_base e in
  (en_x b - en_size b / 2, en_y b - en_size b / 2,
   en_x b + en_size b / 2, en_y b + en_size b / 2).

(** The enemy after [__init__] and [create]: in the move-right state,
    with a speed of [randint(1, 3)], placed [randint(18, 22)] right of
    and below the home's centre. *)
Definition created (g : TurtleAdventureGame) (size : R) (color : string)
    (r1 r2 r3 : Z) : option FencingEnemy :=
  match Random.randint 1 3 r1 with
  | None => None
  | Some v =>
      match Random.randint 18 22 r2 with
      | None => None
      | Some dx =>
          match Random.randint 18 22 r3 with
          | None => None
          | Some dy =>
              Some (mkFencing
                      (mkEnemy (home_x (home g) + IZR dx)
                         (home_y (home g) + IZR dy) size color (IZR v))
                      Sf_move_right)
          end
      end
  end.

End FencingEnemy.

(** ** [CrossEnemy]: the diagonal sweep *)

Inductive CrossState := Sc_move_down | Sc_move_up.

Record CrossEnemy := mkCross {
  ce_base : Enemy;
  ce_state : CrossState;
  ce_x_speed : R;
  ce_y_speed : R
}.

Module CrossEnemy.

(** Python's [a / b] on floats: [None] is [ZeroDivisionError]. *)
Definition truediv (a b : R) : option R :=
  if Req_dec_T b 0 then None else Some (a / b).

(** The vector that [move_down_state] normalises, and its length. *)
Definition delta_down (g : TurtleAdventureGame) (e : CrossEnemy) : R * R :=
  (IZR (canvas_width g) - en_x (ce_base e),
   IZR (canvas_height g) - en_y (ce_base e)).

(** The vector that [move_up_state] normalises. *)
Definition delta_up (g : TurtleAdventureGame) (e : CrossEnemy) : R * R :=
  (IZR (canvas_width g) - en_x (ce_base e), en_y (ce_base e)).

Definition hypotenuse (d : R * R) : R := sqrt (fst d ^ 2 + snd d ^ 2).

(** The guards of the two states: the branch that divides is taken when
    the guard holds. *)
Definition guard_down (g : TurtleAdventureGame) (e : CrossEnemy) : bool :=
  Rleb 10 (IZR (canvas_height g) - en_y (ce_base e)).

Definition guard_up (e : CrossEnemy) : bool :=
  Rleb 10 (en_y (ce_base e)).

Definition move_down_state (g : TurtleAdventureGame) (e : CrossEnemy)
    : option CrossEnemy :=
  let b := ce_base e in
  if guard_down g e then
    let delta_x := fst (delta_down g e) in
    let delta_y := snd (delta_down g e) in
    let hypotenuse := hypotenuse (delta_down g e) in
    match truediv delta_x hypotenuse with
    | None => None
    | Some ux =>
        let x_speed := en_speed b * ux in
        match truediv delta_y hypotenuse with
        | None => None
        | Some uy =>
            let y_speed := en_speed b * uy in
            Some (mkCross (set_y (set_x b (en_x b + x_speed))
                                 (en_y b + y_speed))
                    (ce_state e) x_speed y_speed)
        end
    end
  else
    Some (mkCross (set_y (set_x b 0) (IZR (canvas_height g)))
            Sc_move_up (ce_x_speed e) (ce_y_speed e)).

Definition move_up_state (g : TurtleAdventureGame) (e : CrossEnemy)
    : option CrossEnemy :=
  let b := ce_base e in
  if guard_up e then
    let delta_x := fst (delta_up g e) in
    let delta_y := snd (delta_up g e) in
    let hypotenuse := hypotenuse (delta_up g e) in
    match truediv delta_x hypotenuse with
    | None => None
    | Some ux =>
        let x_speed := en_speed b * ux in
        match truediv delta_y hypotenuse with
        | None => None
        | Some uy =>
            let y_speed := en_speed b * uy in
            Some (mkCross (set_y (set_x b (en_x b + x_speed))
                                 (en_y b - y_speed))
                    (ce_state e) x_speed y_speed)
        end
    end
  else
    Some (mkCross (set_y (set_x b 0) 0)
            Sc_move_down (ce_x_speed e) (ce_y_speed e)).

Definition state (g : TurtleAdventureGame) (e : CrossEnemy) :=
  match ce_state e with
  | Sc_move_down => move_down_state g e
  | Sc_move_up => move_up_state g e
  end.

Definition update (g : TurtleAdventureGame) (e : CrossEnemy)
    : option (CrossEnemy * TurtleAdventureGame) :=
  match state g e with
  | None => None
  | Some e => Some (e, Enemy.check_hit g (ce_base e))
  end.

(** [render]: the image is put at the enemy's position. *)
Definition render (e : CrossEnemy) : R * R :=
  (en_x (ce_base e), en_y (ce_base e)).

(** The enemy after [__init__] and [create]: at the origin, in the
    move-down state, with a speed of [randint(10, 15)]. *)
Definition created (size : R) (color : string) (r : Z) : option CrossEnemy :=
  match Random.randint 10 15 r with
  | None => None
  | Some v =>
      Some (mkCross (mkEnemy 0 0 size color (IZR v)) Sc_move_down 0 0)
  end.

End CrossEnemy.

(** ** [EnemyGenerator] *)

Record EnemyGenerator := mkGenerator {
  gen_level : Z
}.

Module EnemyGenerator.

(** [for _ in range(n): body]; [range] of a non-positive bound is
    empty. *)
Definition for_range (n : Z)
    (body : TurtleAdventureGame -> TurtleAdventureGame)
    (g : TurtleAdventureGame) : TurtleAdventureGame :=
  Nat.iter (Z.to_nat n) body g.

Definition create_random (gen : EnemyGenerator) (g : TurtleAdventureGame) :=
  for_range (2 * level g - 1)
    (fun g => Game.add_element g (ElEnemy (mkSpawn KRandomWalk 15 "blue"))) g.

(** [num] is [None] for the default argument; [not num] also holds for a
    zero. *)
Definition create_chasing (gen : EnemyGenerator) (num : option Q)
    (g : TurtleAdventureGame) :=
  let num :=
    match num with
    | None => inject_Z (gen_level gen)
    | Some q => if Qeq_bool q 0 then inject_Z (gen_level gen) else q
    end in
  for_range (Qceiling (num / 3))
    (fun g => Game.add_element g (ElEnemy (mkSpawn KChasing 20 "red"))) g.

Definition create_fencing (gen : EnemyGenerator) (g : TurtleAdventureGame) :=
  for_range (Qceiling (inject_Z (level g) / 2))
    (fun g => Game.add_element g (ElEnemy (mkSpawn KFencing 10 "green"))) g.

Definition create_cross (gen : EnemyGenerator) (g : TurtleAdventureGame) :=
  for_range (3 * level g - 2)
    (fun g => Game.add_element g (ElEnemy (mkSpawn KCross 25 "black"))) g.

Definition create_enemy (gen : EnemyGenerator) (g : TurtleAdventureGame) :=
  let g := create_random gen g in
  let g := create_chasing gen None g in
  let g := create_fencing gen g in
  create_cross gen g.

(** [EnemyGenerator(game, level)]: the generator and the game with the
    four timers set. *)
Definition init (g : TurtleAdventureGame) (level : Z)
    : EnemyGenerator * TurtleAdventureGame :=
  let g := Game.after g 100 CbCreateEnemy in
  let g :=
    for_range 3
      (fun g => Game.after g 10000 (CbCreateChasing (inject_Z level / 4))) g in
  (mkGenerator level, g).

(** What a timer does when it fires. *)
Definition fire (gen : EnemyGenerator) (cb : Callback)
    (g : TurtleAdventureGame) : TurtleAdventureGame :=
  match cb with
  | CbCreateEnemy => create_enemy gen g
  | CbCreateChasing num => create_chasing gen (Some num) g
  end.

End EnemyGenerator.

(** ** [TurtleAdventureGame.init_game]

    The canvas is configured to the screen size, which is what
    [winfo_width()] and [winfo_height()] return afterwards.  A fresh
    element sits at the origin and a fresh turtle heads east.  The loop is
    not running yet: it is started after the game is built. *)
Definition init_game (screen_width screen_height level : Z)
    : EnemyGenerator * TurtleAdventureGame :=
  let turtle := Turtle.mk 0 0 (1, 0) in
  let waypoint := mkWaypoint 0 0 false in
  let home :=
    mkHome (IZR (screen_width - 100)) (IZR (screen_height / 2)) 20 in
  let player := mkPlayer turtle 5 in
  let g :=
    mkGame level screen_width screen_height screen_width screen_height
      waypoint home player [] false [] [] in
  let g := Game.add_element g ElWaypoint in
  let g := Game.add_element g ElHome in
  let g := Game.add_element g ElPlayer in
  let '(gen, g) := EnemyGenerator.init g level in
  let turtle := Turtle.mk 50 (IZR (screen_height / 2)) (1, 0) in
  (gen, set_player g (Player.set_turtle (player) turtle)).

(** * Definitions used in the statements *)

(** ** Scenes and outcomes *)

(** The game with the player's turtle put at [(x, y)]. *)
Definition player_at (g : TurtleAdventureGame) (x y : R) :=
  set_player g
    (Player.set_turtle (player g)
       (Turtle.mk x y (Turtle.heading (pl_turtle (player g))))).

Inductive Outcome := Won | Lost.

Definition game_over (g : TurtleAdventureGame) (o : Outcome) :=
  match o with
  | Won => game_over_win g
  | Lost => game_over_lose g
  end.

Definition banner (g : TurtleAdventureGame) (o : Outcome) : CanvasText :=
  match o with
  | Won =>
      mkText (IZR (screen_width g) / 2) (IZR (screen_height g) / 2)
        "You Win" "green"
  | Lost =>
      mkText (IZR (screen_width g) / 2) (IZR (screen_height g) / 2)
        "You Lose" "red"
  end.

(** A run of outcome calls, in order. *)
Definition game_over_calls (g : TurtleAdventureGame) (l : list Outcome) :=
  fold_left game_over l g.

(** What an outcome call leaves alone. *)
Definition same_entities (g g' : TurtleAdventureGame) : Prop :=
  player g' = player g /\ waypoint g' = waypoint g /\ home g' = home g /\
  elements g' = elements g /\ timers g' = timers g /\
  level g' = level g /\
  screen_width g' = screen_width g /\ screen_height g' = screen_height g /\
  canvas_width g' = canvas_width g /\ canvas_height g' = canvas_height g.

(** The turtle after the move of [Player.update]. *)
Definition stepped (p : Player) (w : Waypoint) : Turtle.t :=
  Turtle.forward
    (Turtle.setheading (pl_turtle p)
       (Turtle.towards (pl_turtle p) (wp_x w) (wp_y w)))
    (Player.speed p).

(** The game with a player of speed [s] standing at [(px, py)] and heading
    east. *)
Definition place (g : TurtleAdventureGame) (px py s : R)
    : TurtleAdventureGame :=
  set_player g (mkPlayer (Turtle.mk px py (1, 0)) s).

(** The handler bound to the pointer click in [init_game]:
    [self.waypoint.activate(e.x, e.y)]. *)
Definition click (g : TurtleAdventureGame) (x y : R) : TurtleAdventureGame :=
  set_waypoint g (Waypoint.activate (waypoint g) x y).

(** ** Fixtures *)

(** An 800 x 500 game of level 1, laid out as [init_game] does, with the
    loop running: home at (700, 250), player at (50, 250). *)
Definition game0 : TurtleAdventureGame :=
  mkGame 1 800 500 800 500
    (mkWaypoint 0 0 false) (mkHome 700 250 20)
    (mkPlayer (Turtle.mk 50 250 (1, 0)) 5)
    [] true [] [].

Definition game_won : TurtleAdventureGame := game_over_win game0.

Definition patrol0 : DemoEnemy :=
  mkDemo (mkEnemy 100 100 10 "red" 3) Sx_move_right Sy_move_down.

(** The player at the centre of the home, the waypoint active and ten
    units further east. *)
Definition game_at_home : TurtleAdventureGame :=
  click (place game0 700 250 5) 710 250.

(** The player at the centre of the home, the waypoint never set. *)
Definition game_resting_at_home : TurtleAdventureGame :=
  place game0 700 250 5.

(** The player at its starting point (50, 250), the waypoint clicked three
    units further east. *)
Definition game_walking : TurtleAdventureGame :=
  click (place game0 50 250 5) 53 250.

(** ** Movement rules *)

(** One axis of the seek: from [x], towards [d], by [s]. *)
Definition seek (x d s : R) : R :=
  if Rltb x d then x + Rmin s (d - x) else x - Rmin s (x - d).

(** The random-walk enemy of the arrival instance: at (50, 50), which is
    its destination, with speed 3. *)
Definition walker0 : RandomWalkEnemy :=
  mkRandomWalk (mkEnemy 50 50 15 "blue" 3) (50%Z, 50%Z).

Definition flip_x (s : DemoXState) : DemoXState :=
  match s with
  | Sx_move_right => Sx_move_left
  | Sx_move_left => Sx_move_right
  end.

Definition flip_y (s : DemoYState) : DemoYState :=
  match s with
  | Sy_move_down => Sy_move_up
  | Sy_move_up => Sy_move_down
  end.

(** Where the x step, resp. the y step, takes the patrol. *)
Definition x_moved (e : DemoEnemy) : R :=
  match de_x_state e with
  | Sx_move_right => en_x (de_base e) + en_speed (de_base e)
  | Sx_move_left => en_x (de_base e) - en_speed (de_base e)
  end.

Definition y_moved (e : DemoEnemy) : R :=
  match de_y_state e with
  | Sy_move_down => en_y (de_base e) + en_speed (de_base e)
  | Sy_move_up => en_y (de_base e) - en_speed (de_base e)
  end.

(** Is a coordinate past an edge of the screen: the border checks. *)
Definition past_x_edge (g : TurtleAdventureGame) (v : R) : bool :=
  Rltb v 0 || Rltb (IZR (canvas_width g)) v.

Definition past_y_edge (g : TurtleAdventureGame) (v : R) : bool :=
  Rltb v 0 || Rltb (IZR (canvas_height g)) v.

(** A run of updates of one patrol, each with its two draws. *)
Fixpoint DemoEnemy_run (draws : list (Z * Z)) (g : TurtleAdventureGame)
    (e : DemoEnemy) : DemoEnemy * TurtleAdventureGame :=
  match draws with
  | [] => (e, g)
  | (rx, ry) :: draws =>
      let '(e, g) := DemoEnemy.update g e rx ry in
      DemoEnemy_run draws g e
  end.

(** The patrol at the right edge: x = 800 on the 800 x 500 canvas, moving
    right and down with speed 4. *)
Definition patrol_at_edge : DemoEnemy :=
  mkDemo (mkEnemy 800 100 10 "red" 4) Sx_move_right Sy_move_down.

(** The sweep enemy as it is constructed, on the 800 x 500 canvas: at the
    origin, moving down, with speed 12. *)
Definition sweeper0 : CrossEnemy :=
  mkCross (mkEnemy 0 0 25 "black" 12) Sc_move_down 0 0.

(** ** Waves *)

Definition EnemyKind_eqb (a b : EnemyKind) : bool :=
  match a, b with
  | KDemo, KDemo | KRandomWalk, KRandomWalk | KChasing, KChasing
  | KFencing, KFencing | KCross, KCross => true
  | _, _ => false
  end.

(** How many enemies of a kind a list of spawned enemies holds. *)
Definition is_kind (k : EnemyKind) (e : Element) : bool :=
  match e with
  | ElEnemy s => EnemyKind_eqb (sp_kind s) k
  | _ => false
  end.

Definition count_kind (k : EnemyKind) (l : list Element) : nat :=
  List.length (filter (is_kind k) l).

Definition random_walk_spawn := ElEnemy (mkSpawn KRandomWalk 15 "blue").
Definition chasing_spawn := ElEnemy (mkSpawn KChasing 20 "red").
Definition fencing_spawn := ElEnemy (mkSpawn KFencing 10 "green").
Definition cross_spawn := ElEnemy (mkSpawn KCross 25 "black").

(** The baseline wave of level [L], category by category. *)
Definition baseline_wave (L : Z) : list Element :=
  repeat random_walk_spawn (Z.to_nat (2 * L - 1)) ++
  repeat chasing_spawn (Z.to_nat (Qceiling (inject_Z L / 3))) ++
  repeat fencing_spawn (Z.to_nat (Qceiling (inject_Z L / 2))) ++
  repeat cross_spawn (Z.to_nat (3 * L - 2)).

(** The number [create_chasing] works from: the level when [num] is
    missing or zero. *)
Definition chasing_base (gen : EnemyGenerator) (num : option Q) : Q :=
  match num with
  | None => inject_Z (gen_level gen)
  | Some q => if Qeq_bool q 0 then inject_Z (gen_level gen) else q
  end.

(** ** Runs and measures of the other elements *)

(** The distance from the player to the waypoint. *)
Definition waypoint_distance (g : TurtleAdventureGame) : R :=
  Turtle.distance (pl_turtle (player g))
    (wp_x (waypoint g)) (wp_y (waypoint g)).

(** [n] updates of one chasing enemy, the game threaded through. *)
Fixpoint ChasingEnemy_run (n : nat) (g : TurtleAdventureGame)
    (e : ChasingEnemy) : ChasingEnemy * TurtleAdventureGame :=
  match n with
  | O => (e, g)
  | S n =>
      let '(e, g) := ChasingEnemy.update g e in
      ChasingEnemy_run n g e
  end.

(** [n] updates of one fencing enemy. *)
Fixpoint FencingEnemy_run (n : nat) (g : TurtleAdventureGame)
    (e : FencingEnemy) : FencingEnemy * TurtleAdventureGame :=
  match n with
  | O => (e, g)
  | S n =>
      let '(e, g) := FencingEnemy.update g e in
      FencingEnemy_run n g e
  end.

(** [n] updates of one sweep enemy; an update that raises ends the run. *)
Fixpoint CrossEnemy_run (n : nat) (g : TurtleAdventureGame)
    (e : CrossEnemy) : option (CrossEnemy * TurtleAdventureGame) :=
  match n with
  | O => Some (e, g)
  | S n =>
      match CrossEnemy.update g e with
      | None => None
      | Some (e, g) => CrossEnemy_run n g e
      end
  end.

(** The state that follows in the fencing enemy's round. *)
Definition fence_next (s : FencingState) : FencingState :=
  match s with
  | Sf_move_right => Sf_move_up
  | Sf_move_up => Sf_move_left
  | Sf_move_left => Sf_move_down
  | Sf_move_down => Sf_move_right
  end.

(** How far the fencing enemy is from the line at which its state
    turns. *)
Definition fence_remaining (g : TurtleAdventureGame) (e : FencingEnemy)
    : R :=
  match fe_state e with
  | Sf_move_right => home_x (home g) + 20 - en_x (fe_base e)
  | Sf_move_up => en_y (fe_base e) - (home_y (home g) - 20)
  | Sf_move_left => en_x (fe_base e) - (home_x (home g) - 20)
  | Sf_move_down => home_y (home g) + 20 - en_y (fe_base e)
  end.

(** Within [m] of the 40 x 40 square around the home, on both axes. *)
Definition near_fence (g : TurtleAdventureGame) (m : R) (e : FencingEnemy)
    : Prop :=
  home_x (home g) - 20 - m <= en_x (fe_base e) <= home_x (home g) + 20 + m /\
  home_y (home g) - 20 - m <= en_y (fe_base e) <= home_y (home g) + 20 + m.

(** On the diagonal of the current state: the one into the bottom-right
    corner when moving down, the one into the top-right corner when
    moving up. *)
Definition on_diagonal (g : TurtleAdventureGame) (e : CrossEnemy) : Prop :=
  match ce_state e with
  | Sc_move_down =>
      (IZR (canvas_width g) - en_x (ce_base e)) * IZR (canvas_height g) =
      (IZR (canvas_height g) - en_y (ce_base e)) * IZR (canvas_width g)
  | Sc_move_up =>
      (IZR (canvas_width g) - en_x (ce_base e)) * IZR (canvas_height g) =
      en_y (ce_base e) * IZR (canvas_width g)
  end.

(** A chasing enemy of speed 2 and size 20 at (60, 250). *)
Definition chaser0 : ChasingEnemy :=
  mkChasing (mkEnemy 60 250 20 "red" 2) (0, 0).

(** A fencing enemy of speed 1 at the far corner of where [create] may
    put it around the home of [game0]. *)
Definition fencer0 : FencingEnemy :=
  mkFencing (mkEnemy 722 272 10 "green" 1) Sf_move_right.

(** A random-walk enemy of speed 3 at (50, 50), one step short of its
    destination (52, 49). *)
Definition walker1 : RandomWalkEnemy :=
  mkRandomWalk (mkEnemy 50 50 15 "blue" 3) (52%Z, 49%Z).

(** What an enemy's update may do to the game [g], for the enemy that
    ends the update as [b]: lose it when [b] hits the player, return it
    as it was otherwise, and leave the entities alone in both cases. *)
Definition only_lost (g g' : TurtleAdventureGame) (b : Enemy) : Prop :=
  ((Enemy.hits_player g b = true /\ g' = game_over_lose g) \/
   (Enemy.hits_player g b = false /\ g' = g)) /\
  player g' = player g /\ waypoint g' = waypoint g /\ home g' = home g /\
  elements g' = elements g /\ timers g' = timers g.

(** Inside the canvas, edges included. *)
Definition in_canvas (g : TurtleAdventureGame) (x y : R) : Prop :=
  0 <= x <= IZR (canvas_width g) /\ 0 <= y <= IZR (canvas_height g).

(** A random-walk enemy that is inside the canvas and whose destination
    is inside the canvas. *)
Definition walker_in_canvas (g : TurtleAdventureGame)
    (e : RandomWalkEnemy) : Prop :=
  in_canvas g (en_x (rw_base e)) (en_y (rw_base e)) /\
  in_canvas g (IZR (fst (rw_destination e))) (IZR (snd (rw_destination e))).

(** All the timers of the game fire, in the order they were set. *)
Definition fire_all (gen : EnemyGenerator) (g : TurtleAdventureGame)
    : TurtleAdventureGame :=
  fold_left (fun g t => EnemyGenerator.fire gen (task_callback t) g)
    (timers g) g.

(** A point strictly inside, resp. inside or on the edge of, a rectangle
    given by two corners. *)
Definition strictly_inside (box : R * R * R * R) (x y : R) : Prop :=
  let '(x1, y1, x2, y2) := box in x1 < x < x2 /\ y1 < y < y2.

Definition inside_or_on (box : R * R * R * R) (x y : R) : Prop :=
  let '(x1, y1, x2, y2) := box in x1 <= x <= x2 /\ y1 <= y <= y2.

(** * Properties *)

(** ** The comparisons *)

Lemma Rltb_true (a b : R) : Rltb a b = true <-> a < b.
Proof. unfold Rltb; destruct (Rlt_dec a b); split; intros; try easy; lra. Qed.

Lemma Rltb_false (a b : R) : Rltb a b = false <-> b <= a.
Proof. unfold Rltb; destruct (Rlt_dec a b); split; intros; try easy; lra. Qed.

Lemma Rleb_true (a b : R) : Rleb a b = true <-> a <= b.
Proof. unfold Rleb; destruct (Rle_dec a b); split; intros; try easy; lra. Qed.

Lemma Rleb_false (a b : R) : Rleb a b = false <-> b < a.
Proof. unfold Rleb; destruct (Rle_dec a b); split; intros; try easy; lra. Qed.

Lemma Reqb_true (a b : R) : Reqb a b = true <-> a = b.
Proof. unfold Reqb; destruct (Req_dec_T a b); split; intros; easy. Qed.

Lemma Reqb_false (a b : R) : Reqb a b = false <-> a <> b.
Proof. unfold Reqb; destruct (Req_dec_T a b); split; intros; easy. Qed.

(** ** Reading the boolean tests *)

Ltac bool_to_prop :=
  repeat match goal with
  | H : _ && _ = true |- _ => apply andb_true_iff in H; destruct H
  | H : Rltb _ _ = true |- _ => apply Rltb_true in H
  | H : Rleb _ _ = true |- _ => apply Rleb_true in H
  | H : Rltb _ _ = false |- _ => apply Rltb_false in H
  | H : Rleb _ _ = false |- _ => apply Rleb_false in H
  | H : Reqb _ _ = true |- _ => apply Reqb_true in H
  | H : Reqb _ _ = false |- _ => apply Reqb_false in H
  end.

Lemma Home_contains_spec (h : Home) (x y : R) :
  Home.contains h x y = true <->
  (home_x h - home_size h / 2 <= x <= home_x h + home_size h / 2) /\
  (home_y h - home_size h / 2 <= y <= home_y h + home_size h / 2).
Proof.
  unfold Home.contains; cbv zeta.
  rewrite !andb_true_iff, !Rleb_true. tauto.
Qed.

Lemma hits_player_spec (g : TurtleAdventureGame) (e : Enemy) :
  Enemy.hits_player g e = true <->
  (en_x e - en_size e / 2 < Player.x (player g) < en_x e + en_size e / 2) /\
  (en_y e - en_size e / 2 < Player.y (player g) < en_y e + en_size e / 2).
Proof.
  unfold Enemy.hits_player.
  rewrite !andb_true_iff, !Rltb_true. tauto.
Qed.

(** ** The outcome calls *)

Lemma same_entities_refl g : same_entities g g.
Proof. repeat split. Qed.

Lemma same_entities_trans g1 g2 g3 :
  same_entities g1 g2 -> same_entities g2 g3 -> same_entities g1 g3.
Proof.
  unfold same_entities; intros H12 H23.
  decompose [and] H12; decompose [and] H23.
  repeat split; congruence.
Qed.

Lemma game_over_step (g : TurtleAdventureGame) (o : Outcome) :
  running (game_over g o) = false /\
  texts (game_over g o) = texts g ++ [banner g o] /\
  same_entities g (game_over g o).
Proof. destruct o; repeat split. Qed.

Lemma banner_same_entities g g' o :
  same_entities g g' -> banner g' o = banner g o.
Proof.
  unfold same_entities; intros H; decompose [and] H.
  destruct o; simpl; congruence.
Qed.

Lemma game_over_calls_spec (l : list Outcome) :
  forall g,
    texts (game_over_calls g l) = texts g ++ map (banner g) l /\
    same_entities g (game_over_calls g l).
Proof.
  induction l as [|o l IH]; intros g; simpl.
  - rewrite app_nil_r. split; [reflexivity | apply same_entities_refl].
  - destruct (game_over_step g o) as (_ & Ht & Hs).
    destruct (IH (game_over g o)) as (IHt & IHs).
    unfold game_over_calls in *. split.
    + rewrite IHt, Ht, <- app_assoc. simpl. do 2 f_equal.
      apply map_ext. intros o'. now apply banner_same_entities.
    + eapply same_entities_trans; eassumption.
Qed.

Lemma game_over_calls_stopped (l : list Outcome) :
  forall g o, running (game_over_calls g (o :: l)) = false.
Proof.
  induction l as [|o' l IH]; intros g o.
  - now destruct o.
  - change (game_over_calls g (o :: o' :: l))
      with (game_over_calls (game_over g o) (o' :: l)).
    apply IH.
Qed.

(** ** Geometry of the turtle *)

Lemma sqrt_pow2_abs (a : R) : sqrt (a ^ 2) = Rabs a.
Proof.
  replace (a ^ 2) with (Rsqr a) by (unfold Rsqr; ring).
  apply sqrt_Rsqr_abs.
Qed.

Lemma sum_squares_nonneg (a b : R) : 0 <= a ^ 2 + b ^ 2.
Proof. nra. Qed.

Lemma distance_squared (tu : Turtle.t) (x y : R) :
  Turtle.distance tu x y ^ 2 =
  (x - Turtle.xcor tu) ^ 2 + (y - Turtle.ycor tu) ^ 2.
Proof.
  unfold Turtle.distance.
  set (s := (x - Turtle.xcor tu) ^ 2 + (y - Turtle.ycor tu) ^ 2).
  replace (sqrt s ^ 2) with (sqrt s * sqrt s) by ring.
  apply sqrt_sqrt, sum_squares_nonneg.
Qed.

(** On a horizontal line the distance is the absolute difference. *)
Lemma distance_same_y (tu : Turtle.t) (x : R) :
  Turtle.distance tu x (Turtle.ycor tu) = Rabs (x - Turtle.xcor tu).
Proof.
  unfold Turtle.distance.
  replace ((x - Turtle.xcor tu) ^ 2 + (Turtle.ycor tu - Turtle.ycor tu) ^ 2)
    with ((x - Turtle.xcor tu) ^ 2) by ring.
  apply sqrt_pow2_abs.
Qed.

(** [towards] is a unit vector ... *)
Lemma towards_unit (tu : Turtle.t) (x y : R) :
  fst (Turtle.towards tu x y) ^ 2 + snd (Turtle.towards tu x y) ^ 2 = 1.
Proof.
  unfold Turtle.towards; cbv zeta.
  destruct (Req_dec_T (Turtle.distance tu x y) 0) as [Hd|Hd]; simpl.
  - ring.
  - pose proof (distance_squared tu x y) as Hsq.
    set (d := Turtle.distance tu x y) in *.
    replace ((x - Turtle.xcor tu) / d * ((x - Turtle.xcor tu) / d * 1) +
             (y - Turtle.ycor tu) / d * ((y - Turtle.ycor tu) / d * 1))
      with (((x - Turtle.xcor tu) ^ 2 + (y - Turtle.ycor tu) ^ 2) / d ^ 2)
      by (field; exact Hd).
    rewrite <- Hsq. field. exact Hd.
Qed.

(** ... that points from the turtle to the target. *)
Lemma towards_points_to_target (tu : Turtle.t) (x y : R) :
  Turtle.distance tu x y * fst (Turtle.towards tu x y) = x - Turtle.xcor tu /\
  Turtle.distance tu x y * snd (Turtle.towards tu x y) = y - Turtle.ycor tu.
Proof.
  unfold Turtle.towards; cbv zeta.
  destruct (Req_dec_T (Turtle.distance tu x y) 0) as [Hd|Hd]; simpl.
  - pose proof (distance_squared tu x y) as Hsq. rewrite Hd in *.
    pose proof (pow2_ge_0 (x - Turtle.xcor tu)) as Hx.
    pose proof (pow2_ge_0 (y - Turtle.ycor tu)) as Hy.
    assert (Hx0 : x - Turtle.xcor tu = 0)
      by (apply Rsqr_0_uniq; unfold Rsqr; lra).
    assert (Hy0 : y - Turtle.ycor tu = 0)
      by (apply Rsqr_0_uniq; unfold Rsqr; lra).
    split; lra.
  - split; field; exact Hd.
Qed.

(** Turning to a unit heading and going forward by [s] covers the
    distance [|s|]. *)
Lemma forward_covers (tu : Turtle.t) (u : R * R) (s : R) :
  fst u ^ 2 + snd u ^ 2 = 1 ->
  let tu' := Turtle.forward (Turtle.setheading tu u) s in
  Turtle.distance tu (Turtle.xcor tu') (Turtle.ycor tu') = Rabs s.
Proof.
  intros Hu tu'. unfold Turtle.distance, tu', Turtle.forward.
  cbn [Turtle.xcor Turtle.ycor Turtle.heading Turtle.setheading].
  replace ((Turtle.xcor tu + s * fst u - Turtle.xcor tu) ^ 2 +
           (Turtle.ycor tu + s * snd u - Turtle.ycor tu) ^ 2)
    with (s ^ 2 * (fst u ^ 2 + snd u ^ 2)) by ring.
  rewrite Hu, Rmult_1_r. apply sqrt_pow2_abs.
Qed.

(** [Player.update], branch by branch. *)
Lemma Player_update_active (g : TurtleAdventureGame) :
  is_active (waypoint g) = true ->
  let g' := Player.update g in
  pl_turtle (player g') = stepped (player g) (waypoint g) /\
  pl_speed (player g') = pl_speed (player g) /\
  wp_x (waypoint g') = wp_x (waypoint g) /\
  wp_y (waypoint g') = wp_y (waypoint g) /\
  is_active (waypoint g') =
    negb (Rltb (Turtle.distance (stepped (player g) (waypoint g))
                  (wp_x (waypoint g)) (wp_y (waypoint g)))
               (Player.speed (player g))).
Proof.
  intros Ha. unfold Player.update; cbv zeta.
  destruct (Home.contains _ _ _); simpl; rewrite Ha;
    fold (stepped (player g) (waypoint g));
    unfold Player.speed; simpl;
    destruct (Rltb _ _); simpl; repeat split; exact Ha.
Qed.

Lemma Player_update_inactive (g : TurtleAdventureGame) :
  is_active (waypoint g) = false ->
  player (Player.update g) = player g /\
  waypoint (Player.update g) = waypoint g /\
  home (Player.update g) = home g.
Proof.
  intros Ha. unfold Player.update; cbv zeta.
  destruct (Home.contains _ _ _); simpl; rewrite Ha; repeat split.
Qed.

Lemma Player_update_home (g : TurtleAdventureGame) :
  Home.contains (home g) (Player.x (player g)) (Player.y (player g)) = true ->
  running (Player.update g) = false /\
  texts (Player.update g) = texts g ++ [banner g Won].
Proof.
  intros Hc. unfold Player.update; cbv zeta. rewrite Hc.
  destruct (is_active (waypoint (game_over_win g))); [|now split].
  destruct (Rltb _ _); now split.
Qed.

Lemma towards_east (tu : Turtle.t) (x : R) :
  Turtle.xcor tu < x ->
  Turtle.towards tu x (Turtle.ycor tu) = (1, 0).
Proof.
  intros Hx. unfold Turtle.towards; cbv zeta.
  rewrite distance_same_y, Rabs_right by lra.
  destruct (Req_dec_T (x - Turtle.xcor tu) 0) as [H0|H0]; [lra|].
  f_equal; field; exact H0.
Qed.

(** A player walking east along a horizontal line towards an active
    waypoint ahead of it. *)
Lemma Player_update_east (g : TurtleAdventureGame) (px py s wx : R) :
  px < wx ->
  let g' := Player.update (click (place g px py s) wx py) in
  Player.x (player g') = px + s /\
  Player.y (player g') = py /\
  is_active (waypoint g') = negb (Rltb (Rabs (wx - (px + s))) s).
Proof.
  intros Hlt g'.
  destruct (Player_update_active (click (place g px py s) wx py) eq_refl)
    as (Ht & _ & _ & _ & Ha).
  fold g' in Ht, Ha. unfold Player.x, Player.y. rewrite Ht, Ha.
  unfold stepped, click, place, Waypoint.activate;
  cbn [player waypoint set_waypoint set_player
    pl_turtle wp_x wp_y Player.speed pl_speed].
  pose proof (towards_east (Turtle.mk px py (1, 0)) wx Hlt) as Hto.
  cbn [Turtle.ycor Turtle.xcor] in Hto. rewrite Hto.
  unfold Turtle.forward, Turtle.setheading;
    cbn [Turtle.xcor Turtle.ycor Turtle.heading fst snd].
  repeat split; try ring.
  do 2 f_equal.
  set (tu := Turtle.mk (px + s * 1) (py + s * 0) (1, 0)).
  replace py with (Turtle.ycor tu) at 1 by (unfold tu; simpl; ring).
  rewrite distance_same_y. unfold tu; cbn [Turtle.xcor].
  f_equal; ring.
Qed.

(** ** The patrol's position after an update *)

Lemma DemoEnemy_x_state_x (g : TurtleAdventureGame) (e : DemoEnemy) (r : Z) :
  en_x (de_base (DemoEnemy.x_state g e r)) =
  match de_x_state e with
  | Sx_move_right => en_x (de_base e) + en_speed (de_base e)
  | Sx_move_left => en_x (de_base e) - en_speed (de_base e)
  end.
Proof.
  unfold DemoEnemy.x_state, DemoEnemy.state_move_right,
    DemoEnemy.state_move_left; cbv zeta.
  destruct (de_x_state e); destruct (DemoEnemy.check_x_border _ _);
    reflexivity.
Qed.

Lemma DemoEnemy_y_state_x (g : TurtleAdventureGame) (e : DemoEnemy) (r : Z) :
  en_x (de_base (DemoEnemy.y_state g e r)) = en_x (de_base e).
Proof.
  unfold DemoEnemy.y_state, DemoEnemy.state_move_down,
    DemoEnemy.state_move_up; cbv zeta.
  destruct (de_y_state e); destruct (DemoEnemy.check_y_border _ _);
    reflexivity.
Qed.

Lemma DemoEnemy_update_x (g : TurtleAdventureGame) (e : DemoEnemy)
    (rx ry : Z) :
  en_x (de_base (fst (DemoEnemy.update g e rx ry))) =
  match de_x_state e with
  | Sx_move_right => en_x (de_base e) + en_speed (de_base e)
  | Sx_move_left => en_x (de_base e) - en_speed (de_base e)
  end.
Proof.
  unfold DemoEnemy.update; cbv zeta; cbn [fst].
  now rewrite DemoEnemy_y_state_x, DemoEnemy_x_state_x.
Qed.

(** The patrol's move reads the canvas size and nothing else of the
    game. *)
Lemma DemoEnemy_update_same_canvas (g g' : TurtleAdventureGame)
    (e : DemoEnemy) (rx ry : Z) :
  canvas_width g' = canvas_width g ->
  canvas_height g' = canvas_height g ->
  fst (DemoEnemy.update g' e rx ry) = fst (DemoEnemy.update g e rx ry).
Proof.
  intros Hw Hh. unfold DemoEnemy.update; cbv zeta; cbn [fst].
  assert (Hx : forall e r, DemoEnemy.x_state g' e r = DemoEnemy.x_state g e r).
  { intros e0 r. unfold DemoEnemy.x_state, DemoEnemy.state_move_right,
      DemoEnemy.state_move_left, DemoEnemy.check_x_border; cbv zeta.
    now rewrite Hw. }
  assert (Hy : forall e r, DemoEnemy.y_state g' e r = DemoEnemy.y_state g e r).
  { intros e0 r. unfold DemoEnemy.y_state, DemoEnemy.state_move_down,
      DemoEnemy.state_move_up, DemoEnemy.check_y_border; cbv zeta.
    now rewrite Hh. }
  now rewrite Hx, Hy.
Qed.

(** * The claims *)

(** ** C3: the hit-box is an open square *)

(** The five variants end their [update] with the one test of the base
    class, applied to their own position and size. *)
Lemma variants_share_hit_test (g : TurtleAdventureGame) :
  (forall e rx ry,
     snd (DemoEnemy.update g e rx ry) =
     Enemy.check_hit g (de_base (fst (DemoEnemy.update g e rx ry)))) /\
  (forall e r1 r2 e' g',
     RandomWalkEnemy.update g e r1 r2 = Some (e', g') ->
     g' = Enemy.check_hit g (rw_base e')) /\
  (forall e,
     snd (ChasingEnemy.update g e) =
     Enemy.check_hit g (ch_base (fst (ChasingEnemy.update g e)))) /\
  (forall e,
     snd (FencingEnemy.update g e) =
     Enemy.check_hit g (fe_base (fst (FencingEnemy.update g e)))) /\
  (forall e e' g',
     CrossEnemy.update g e = Some (e', g') ->
     g' = Enemy.check_hit g (ce_base e')).
Proof.
  repeat split.
  - intros e r1 r2 e' g'. unfold RandomWalkEnemy.update.
    destruct (RandomWalkEnemy.arrived e);
      [destruct (RandomWalkEnemy.gen_dest g r1 r2)|];
      intros H; inversion H; reflexivity.
  - intros e e' g'. unfold CrossEnemy.update.
    destruct (CrossEnemy.state g e); intros H; inversion H; reflexivity.
Qed.

(** C3.  For every enemy and every player position, [hits_player] is
    true exactly when the player lies strictly inside the open square
    (x - size/2, x + size/2) x (y - size/2, y + size/2) around the enemy.
    A player exactly on the edge x = enemy.x - size/2 is never hit; a
    player strictly inside always is.  The test is the base class's, so
    all five variants share it. *)
Theorem hits_player_open_square (g : TurtleAdventureGame) (e : Enemy) :
  (Enemy.hits_player g e = true <->
   (en_x e - en_size e / 2 < Player.x (player g) < en_x e + en_size e / 2) /\
   (en_y e - en_size e / 2 < Player.y (player g) < en_y e + en_size e / 2))
  /\
  (forall py,
     Enemy.hits_player (player_at g (en_x e - en_size e / 2) py) e = false)
  /\
  (forall px py,
     en_x e - en_size e / 2 < px < en_x e + en_size e / 2 ->
     en_y e - en_size e / 2 < py < en_y e + en_size e / 2 ->
     Enemy.hits_player (player_at g px py) e = true).
Proof.
  split; [apply hits_player_spec|split].
  - intros py.
    destruct (Enemy.hits_player _ e) eqn:Hh; [|reflexivity].
    apply hits_player_spec in Hh. cbn in Hh. lra.
  - intros px py Hx Hy. apply hits_player_spec. cbn. split; assumption.
Qed.

(** An enemy of size 10 at (100, 100): the player on its left edge at
    (95, 100) is not hit, the player at (96, 100) is. *)
Lemma hits_player_open_square_witness :
  Enemy.hits_player (player_at game0 95 100) (mkEnemy 100 100 10 "red" 3)
    = false /\
  Enemy.hits_player (player_at game0 96 100) (mkEnemy 100 100 10 "red" 3)
    = true.
Proof.
  pose proof (hits_player_open_square game0 (mkEnemy 100 100 10 "red" 3))
    as (_ & Hedge & Hin).
  split.
  - specialize (Hedge 100). cbn [en_x en_size] in Hedge.
    replace (100 - 10 / 2) with 95 in Hedge by lra. exact Hedge.
  - apply Hin; cbn [en_x en_y en_size]; lra.
Defined.

(** ** C10: the home is a closed square *)

(** C10.  [Home.contains] is a closed-interval test: it is true exactly
    when home.x - size/2 <= x <= home.x + size/2 and
    home.y - size/2 <= y <= home.y + size/2.  A player standing exactly on
    the home's edge has arrived: [Player.update] wins the game there,
    whereas an enemy of the same square would not hit that player. *)
Theorem Home_contains_closed (g : TurtleAdventureGame) :
  (forall x y,
     Home.contains (home g) x y = true <->
     (home_x (home g) - home_size (home g) / 2 <= x
        <= home_x (home g) + home_size (home g) / 2) /\
     (home_y (home g) - home_size (home g) / 2 <= y
        <= home_y (home g) + home_size (home g) / 2))
  /\
  (0 <= home_size (home g) ->
   forall y,
     home_y (home g) - home_size (home g) / 2 <= y
       <= home_y (home g) + home_size (home g) / 2 ->
     let g' := player_at g (home_x (home g) - home_size (home g) / 2) y in
     Home.contains (home g') (Player.x (player g')) (Player.y (player g'))
       = true /\
     running (Player.update g') = false /\
     texts (Player.update g') = texts g' ++ [banner g' Won] /\
     Enemy.hits_player g'
       (mkEnemy (home_x (home g)) (home_y (home g)) (home_size (home g))
          "red" 1) = false).
Proof.
  split; [intros x y; apply Home_contains_spec|].
  intros Hs y Hy g'.
  assert (Hc : Home.contains (home g') (Player.x (player g'))
                 (Player.y (player g')) = true).
  { apply Home_contains_spec. unfold g'; cbn. lra. }
  split; [exact Hc|].
  destruct (Player_update_home g' Hc) as (Hr & Ht).
  repeat split; try assumption.
  destruct (Enemy.hits_player g' _) eqn:Hh; [|reflexivity].
  apply hits_player_spec in Hh. unfold g' in Hh; cbn in Hh. lra.
Qed.

(** The home of [game0] is the square [690, 710] x [240, 260]; the player
    at (690, 250) wins. *)
Lemma Home_contains_closed_witness :
  Home.contains (home game0) 690 250 = true /\
  running (Player.update (player_at game0 690 250)) = false.
Proof.
  pose proof (Home_contains_closed game0) as (Hiff & Hedge).
  split.
  - apply Hiff. cbn. lra.
  - assert (Hs : 0 <= home_size (home game0)) by (cbn; lra).
    assert (Hy : home_y (home game0) - home_size (home game0) / 2 <= 250
                 <= home_y (home game0) + home_size (home game0) / 2)
      by (cbn; lra).
    pose proof (Hedge Hs 250 Hy) as (_ & Hr & _).
    cbn [home game0 home_x home_size] in Hr.
    replace (700 - 20 / 2) with 690 in Hr by lra. exact Hr.
Defined.

(** ** C1: the outcome calls *)

(** Against C1 as stated.  After [game_over_win] has ended [game0], a
    call of [game_over_lose] is not a no-op: it draws a second banner, so
    both "You Win" and "You Lose" are on the canvas; a repeated
    [game_over_win] draws "You Win" twice; and an update of the patrol at
    (100, 100) with speed 3 still moves it to x = 103. *)
Lemma game_over_not_idempotent :
  running game_won = false /\
  map txt_text (texts game_won) = ["You Win"%string] /\
  map txt_text (texts (game_over_lose game_won))
    = ["You Win"%string; "You Lose"%string] /\
  game_over_lose game_won <> game_won /\
  map txt_text (texts (game_over_win game_won))
    = ["You Win"%string; "You Win"%string] /\
  game_over_win game_won <> game_won /\
  en_x (de_base (fst (DemoEnemy.update game_won patrol0 0 0))) = 103 /\
  fst (DemoEnemy.update game_won patrol0 0 0) <> patrol0.
Proof.
  repeat split.
  - intros H. apply (f_equal (fun g => List.length (texts g))) in H.
    discriminate H.
  - intros H. apply (f_equal (fun g => List.length (texts g))) in H.
    discriminate H.
  - rewrite DemoEnemy_update_x. cbn. lra.
  - intros H. apply (f_equal (fun e => en_x (de_base e))) in H.
    rewrite DemoEnemy_update_x in H. cbn in H. lra.
Qed.

(** C1, as the code has it.  [game_over_win] and [game_over_lose] each
    stop the loop and draw their banner, on every call: after a run of
    calls the loop is stopped, the canvas holds one more banner per call,
    in the order of the calls and after the texts that were there, and no
    entity (player, waypoint, home, enemies, timers) has changed.  No call
    looks at an earlier outcome, and a patrol's update moves the patrol
    after the calls as it would have before them. *)
Theorem game_over_calls_accumulate (g : TurtleAdventureGame)
    (o : Outcome) (l : list Outcome) :
  let g' := game_over_calls g (o :: l) in
  running g' = false /\
  texts g' = texts g ++ map (banner g) (o :: l) /\
  same_entities g g' /\
  (forall e rx ry,
     fst (DemoEnemy.update g' e rx ry) = fst (DemoEnemy.update g e rx ry)).
Proof.
  intros g'.
  destruct (game_over_calls_spec (o :: l) g) as (Ht & Hs).
  fold g' in Ht, Hs.
  split; [apply game_over_calls_stopped|].
  split; [exact Ht|]. split; [exact Hs|].
  intros e rx ry. unfold same_entities in Hs.
  apply DemoEnemy_update_same_canvas; tauto.
Qed.

(** ** C2: arriving home *)

(** Against C2 as stated.  The player of [game_at_home] stands at the
    centre (700, 250) of the home and the waypoint is active at
    (710, 250): the update wins the game and then moves the player to
    (705, 250) all the same. *)
Lemma Player_update_moves_after_win :
  Home.contains (home game_at_home) (Player.x (player game_at_home))
    (Player.y (player game_at_home)) = true /\
  Player.x (player game_at_home) = 700 /\
  running (Player.update game_at_home) = false /\
  Player.x (player (Player.update game_at_home)) = 705 /\
  Player.x (player (Player.update game_at_home))
    <> Player.x (player game_at_home).
Proof.
  assert (Hc : Home.contains (home game_at_home)
                 (Player.x (player game_at_home))
                 (Player.y (player game_at_home)) = true).
  { apply Home_contains_spec. cbn. lra. }
  assert (Hx : Player.x (player (Player.update game_at_home)) = 705).
  { unfold game_at_home.
    destruct (Player_update_east game0 700 250 5 710) as (Hx & _); [lra|].
    rewrite Hx. lra. }
  split; [exact Hc|]. split; [reflexivity|].
  split; [apply (Player_update_home _ Hc)|].
  split; [exact Hx|]. rewrite Hx. cbn. lra.
Qed.

Lemma Player_update_iter_inactive (g : TurtleAdventureGame) (n : nat) :
  is_active (waypoint g) = false ->
  player (Nat.iter n Player.update g) = player g /\
  waypoint (Nat.iter n Player.update g) = waypoint g /\
  home (Nat.iter n Player.update g) = home g.
Proof.
  intros Ha. induction n as [|n (IHp & IHw & IHh)]; [now repeat split|].
  rewrite Nat.iter_succ.
  destruct (Player_update_inactive (Nat.iter n Player.update g))
    as (Hp & Hw & Hh); [now rewrite IHw|].
  repeat split; congruence.
Qed.

(** C2, as the code has it.  If [Player.update] finds the player inside
    the home, it wins the game (the loop is stopped and "You Win" is
    drawn) and then applies the waypoint rule of the same call: with the
    waypoint inactive the player's position is unchanged by that update
    and by every repeated update, each of which finds the player at home
    and stops the loop again; with the waypoint active the player is
    still moved by [speed] towards the waypoint. *)
Theorem Player_update_at_home (g : TurtleAdventureGame) :
  Home.contains (home g) (Player.x (player g)) (Player.y (player g)) = true ->
  running (Player.update g) = false /\
  texts (Player.update g) = texts g ++ [banner g Won] /\
  (is_active (waypoint g) = false ->
   forall n,
     player (Nat.iter n Player.update g) = player g /\
     running (Nat.iter (S n) Player.update g) = false) /\
  (is_active (waypoint g) = true ->
   pl_turtle (player (Player.update g)) = stepped (player g) (waypoint g)).
Proof.
  intros Hc. destruct (Player_update_home g Hc) as (Hr & Ht).
  split; [exact Hr|]. split; [exact Ht|]. split.
  - intros Ha n.
    destruct (Player_update_iter_inactive g n Ha) as (Hp & Hw & Hh).
    split; [exact Hp|]. rewrite Nat.iter_succ.
    apply Player_update_home. now rewrite Hp, Hh.
  - intros Ha. apply (Player_update_active g Ha).
Qed.

(** The player at the centre of the home of [game0], waypoint inactive:
    three updates leave it at (700, 250) and the game is won. *)
Lemma Player_update_at_home_witness :
  Player.x (player (Nat.iter 3 Player.update game_resting_at_home)) = 700 /\
  running (Player.update game_resting_at_home) = false.
Proof.
  assert (Hc : Home.contains (home game_resting_at_home)
                 (Player.x (player game_resting_at_home))
                 (Player.y (player game_resting_at_home))
               = true).
  { apply Home_contains_spec. cbn. lra. }
  pose proof (Player_update_at_home _ Hc) as (Hr & _ & Hin & _).
  split; [|exact Hr].
  destruct (Hin eq_refl 3%nat) as (Hp & _).
  unfold Player.x. rewrite Hp. reflexivity.
Defined.

(** ** C6: walking to the waypoint *)

(** C6.  With the waypoint active, one [Player.update] moves the player
    by exactly [speed] along the unit heading that points from the player
    to the waypoint, and deactivates the waypoint if and only if the
    distance that remains after the move is strictly less than [speed].
    With the waypoint inactive the update moves nothing.  In the instance
    of a player at (0, 0) with speed 5 and the waypoint active at (3, 0),
    the player ends within [speed] of the waypoint and the waypoint is
    inactive. *)
Theorem Player_update_waypoint_rule (g : TurtleAdventureGame) :
  let p := player g in
  let w := waypoint g in
  let g' := Player.update g in
  (is_active w = true -> 0 <= Player.speed p ->
   exists u : R * R,
     fst u ^ 2 + snd u ^ 2 = 1 /\
     Turtle.distance (pl_turtle p) (wp_x w) (wp_y w) * fst u
       = wp_x w - Player.x p /\
     Turtle.distance (pl_turtle p) (wp_x w) (wp_y w) * snd u
       = wp_y w - Player.y p /\
     Player.x (player g') = Player.x p + Player.speed p * fst u /\
     Player.y (player g') = Player.y p + Player.speed p * snd u /\
     Turtle.distance (pl_turtle p) (Player.x (player g'))
       (Player.y (player g')) = Player.speed p /\
     (is_active (waypoint g') = false <->
      Turtle.distance (pl_turtle (player g')) (wp_x w) (wp_y w)
        < Player.speed p))
  /\
  (is_active w = false -> player g' = p /\ waypoint g' = w)
  /\
  (let g8 := Player.update (click (place g 0 0 5) 3 0) in
   Player.x (player g8) = 5 /\ Player.y (player g8) = 0 /\
   Turtle.distance (pl_turtle (player g8)) 3 0 < 5 /\
   is_active (waypoint g8) = false).
Proof.
  intros p w g'. split; [|split].
  - intros Ha Hs.
    destruct (Player_update_active g Ha) as (Ht & _ & _ & _ & Hact).
    fold g' p w in Ht, Hact.
    exists (Turtle.towards (pl_turtle p) (wp_x w) (wp_y w)).
    destruct (towards_points_to_target (pl_turtle p) (wp_x w) (wp_y w))
      as (Hpx & Hpy).
    pose proof (towards_unit (pl_turtle p) (wp_x w) (wp_y w)) as Hu.
    pose proof (forward_covers (pl_turtle p) _ (Player.speed p) Hu) as Hd.
    cbv zeta in Hd. fold (stepped p w) in Hd. rewrite <- Ht in Hd.
    rewrite Rabs_right in Hd by lra.
    repeat split; try assumption.
    + unfold Player.x at 1. rewrite Ht. reflexivity.
    + unfold Player.y at 1. rewrite Ht. reflexivity.
    + rewrite Hact, Ht. intros H. apply negb_false_iff in H.
      now apply Rltb_true.
    + rewrite Hact, Ht. intros H. apply negb_false_iff.
      now apply Rltb_true.
  - intros Ha. destruct (Player_update_inactive g Ha) as (Hp & Hw & _).
    now split.
  - intros g8.
    destruct (Player_update_east g 0 0 5 3) as (Hx & Hy & Hact); [lra|].
    fold g8 in Hx, Hy, Hact.
    assert (Hd : Turtle.distance (pl_turtle (player g8)) 3 0 = 2).
    { unfold Player.x, Player.y in Hx, Hy.
      replace 0 with (Turtle.ycor (pl_turtle (player g8))) at 1
        by exact Hy.
      rewrite distance_same_y, Hx.
      unfold Rabs; destruct (Rcase_abs _); lra. }
    split; [rewrite Hx; ring|]. split; [exact Hy|].
    split; [rewrite Hd; lra|].
    rewrite Hact. apply negb_false_iff, Rltb_true.
    unfold Rabs; destruct (Rcase_abs _); lra.
Qed.

(** The player of [game_walking], at (50, 250) with speed 5 and the
    waypoint at (53, 250): the update takes it to a point at distance 5
    from where it was. *)
Lemma Player_update_waypoint_rule_witness :
  Turtle.distance (Turtle.mk 50 250 (1, 0))
    (Player.x (player (Player.update game_walking)))
    (Player.y (player (Player.update game_walking)))
  = 5.
Proof.
  pose proof (Player_update_waypoint_rule game_walking) as (Hact & _ & _).
  cbv zeta in Hact.
  assert (Hs : 0 <= Player.speed (player game_walking)) by (cbn; lra).
  destruct (Hact eq_refl Hs) as (u & _ & _ & _ & _ & _ & Hd & _).
  exact Hd.
Defined.

(** The boundary of the rule: a player standing on its active waypoint
    walks east by [speed]; the distance that remains is then [speed]
    itself, not less, and the waypoint stays active. *)
Example Player_update_on_waypoint (g : TurtleAdventureGame) (px py s : R) :
  0 < s ->
  let g' := Player.update (click (place g px py s) px py) in
  Player.x (player g') = px + s /\ Player.y (player g') = py /\
  is_active (waypoint g') = true.
Proof.
  intros Hs g'.
  destruct (Player_update_active (click (place g px py s) px py) eq_refl)
    as (Ht & _ & _ & _ & Ha).
  fold g' in Ht, Ha. unfold Player.x, Player.y. rewrite Ht, Ha.
  unfold stepped, click, place, Waypoint.activate;
  cbn [player waypoint set_waypoint set_player
    pl_turtle wp_x wp_y Player.speed pl_speed].
  assert (Hto : Turtle.towards (Turtle.mk px py (1, 0)) px py = (1, 0)).
  { unfold Turtle.towards; cbv zeta.
    replace py with (Turtle.ycor (Turtle.mk px py (1, 0))) at 1 by reflexivity.
    rewrite distance_same_y; cbn [Turtle.xcor].
    replace (px - px) with 0 by ring. rewrite Rabs_R0.
    destruct (Req_dec_T 0 0) as [_|Hn]; [reflexivity | now elim Hn]. }
  rewrite Hto.
  unfold Turtle.forward, Turtle.setheading;
    cbn [Turtle.xcor Turtle.ycor Turtle.heading fst snd].
  repeat split; try ring.
  apply negb_true_iff, Rltb_false.
  set (tu := Turtle.mk (px + s * 1) (py + s * 0) (1, 0)).
  replace py with (Turtle.ycor tu) at 1 by (unfold tu; simpl; ring).
  rewrite distance_same_y. unfold tu; cbn [Turtle.xcor].
  unfold Rabs; destruct (Rcase_abs _); lra.
Qed.

(** ** C7: the random walk *)

Lemma randint_range (a b r : Z) :
  (a <= b)%Z ->
  exists v, Random.randint a b r = Some v /\ (a <= v <= b)%Z.
Proof.
  intros Hab. unfold Random.randint.
  destruct (Z.ltb_spec b a) as [Hlt|_]; [lia|].
  eexists; split; [reflexivity|].
  pose proof (Z.mod_pos_bound r (b - a + 1)). lia.
Qed.

Lemma gen_dest_in_bounds (g : TurtleAdventureGame) (r1 r2 : Z) :
  (0 <= canvas_width g)%Z -> (0 <= canvas_height g)%Z ->
  exists d,
    RandomWalkEnemy.gen_dest g r1 r2 = Some d /\
    (0 <= fst d <= canvas_width g)%Z /\ (0 <= snd d <= canvas_height g)%Z.
Proof.
  intros Hw Hh. unfold RandomWalkEnemy.gen_dest.
  destruct (randint_range 0 (canvas_width g) r1 Hw) as (dx & -> & Hdx).
  destruct (randint_range 0 (canvas_height g) r2 Hh) as (dy & -> & Hdy).
  exists (dx, dy). now repeat split.
Qed.

Lemma seek_spec (x d s : R) :
  0 <= s ->
  Rabs (seek x d s - x) = Rmin s (Rabs (d - x)) /\
  Rabs (d - seek x d s) = Rabs (d - x) - Rmin s (Rabs (d - x)) /\
  Rabs (d - seek x d s) <= Rabs (d - x) /\
  (x <= seek x d s <= d \/ d <= seek x d s <= x).
Proof.
  intros Hs. unfold seek.
  destruct (Rltb x d) eqn:Hlt; bool_to_prop.
  - rewrite (Rabs_right (d - x)) by lra.
    destruct (Rmin_case_strong s (d - x) (fun m => m = s \/ m = d - x))
      as [Hm|Hm]; try tauto;
      pose proof (Rmin_l s (d - x)); pose proof (Rmin_r s (d - x));
      repeat split; try (left; lra);
      unfold Rabs; repeat destruct (Rcase_abs _); lra.
  - replace (Rabs (d - x)) with (x - d)
      by (unfold Rabs; destruct (Rcase_abs _); lra).
    destruct (Rmin_case_strong s (x - d) (fun m => m = s \/ m = x - d))
      as [Hm|Hm]; try tauto;
      pose proof (Rmin_l s (x - d)); pose proof (Rmin_r s (x - d));
      repeat split; try (right; lra);
      unfold Rabs; repeat destruct (Rcase_abs _); lra.
Qed.

Lemma RandomWalk_update_x_seek (e : RandomWalkEnemy) :
  RandomWalkEnemy.update_x e =
  mkRandomWalk
    (set_x (rw_base e)
       (seek (en_x (rw_base e)) (IZR (fst (rw_destination e)))
          (en_speed (rw_base e))))
    (rw_destination e).
Proof.
  unfold RandomWalkEnemy.update_x, seek; cbv zeta.
  now destruct (Rltb _ _).
Qed.

Lemma RandomWalk_update_y_seek (e : RandomWalkEnemy) :
  RandomWalkEnemy.update_y e =
  mkRandomWalk
    (set_y (rw_base e)
       (seek (en_y (rw_base e)) (IZR (snd (rw_destination e)))
          (en_speed (rw_base e))))
    (rw_destination e).
Proof.
  unfold RandomWalkEnemy.update_y, seek; cbv zeta.
  now destruct (Rltb _ _).
Qed.

(** The enemy after [update], given the destination [d] it moves to. *)
Lemma RandomWalk_update_towards (g : TurtleAdventureGame)
    (e : RandomWalkEnemy) (r1 r2 : Z) (d : Z * Z) :
  (if RandomWalkEnemy.arrived e
   then RandomWalkEnemy.gen_dest g r1 r2 else Some (rw_destination e))
    = Some d ->
  exists g',
    RandomWalkEnemy.update g e r1 r2 =
    Some (mkRandomWalk
            (mkEnemy
               (seek (en_x (rw_base e)) (IZR (fst d)) (en_speed (rw_base e)))
               (seek (en_y (rw_base e)) (IZR (snd d)) (en_speed (rw_base e)))
               (en_size (rw_base e)) (en_color (rw_base e))
               (en_speed (rw_base e)))
            d, g').
Proof.
  intros Hd. unfold RandomWalkEnemy.update; cbv zeta.
  destruct (RandomWalkEnemy.arrived e).
  - rewrite Hd. rewrite RandomWalk_update_y_seek, RandomWalk_update_x_seek.
    eexists; reflexivity.
  - inversion Hd; subst d.
    rewrite RandomWalk_update_y_seek, RandomWalk_update_x_seek.
    eexists; reflexivity.
Qed.

(** C7.  On a canvas of non-negative size, an update of a random-walk
    enemy of non-negative speed succeeds; it picks a new destination,
    drawn within [0, width] x [0, height], exactly when both coordinates
    equal those of the current destination, and keeps the destination
    otherwise; it then moves each axis on its own by
    min(speed, remaining distance on that axis) towards that destination,
    so the distance to it on each axis does not grow and the coordinate
    stays between its old value and the destination's. *)
Theorem RandomWalkEnemy_update_seeks (g : TurtleAdventureGame)
    (e : RandomWalkEnemy) (r1 r2 : Z) :
  0 <= en_speed (rw_base e) ->
  (0 <= canvas_width g)%Z -> (0 <= canvas_height g)%Z ->
  exists e' g',
    RandomWalkEnemy.update g e r1 r2 = Some (e', g') /\
    let b := rw_base e in
    let b' := rw_base e' in
    let dx := IZR (fst (rw_destination e')) in
    let dy := IZR (snd (rw_destination e')) in
    (RandomWalkEnemy.arrived e = true <->
     IZR (fst (rw_destination e)) = en_x b /\
     IZR (snd (rw_destination e)) = en_y b) /\
    (RandomWalkEnemy.arrived e = true ->
     RandomWalkEnemy.gen_dest g r1 r2 = Some (rw_destination e') /\
     (0 <= fst (rw_destination e') <= canvas_width g)%Z /\
     (0 <= snd (rw_destination e') <= canvas_height g)%Z) /\
    (RandomWalkEnemy.arrived e = false ->
     rw_destination e' = rw_destination e) /\
    Rabs (en_x b' - en_x b) = Rmin (en_speed b) (Rabs (dx - en_x b)) /\
    Rabs (en_y b' - en_y b) = Rmin (en_speed b) (Rabs (dy - en_y b)) /\
    Rabs (dx - en_x b') <= Rabs (dx - en_x b) /\
    Rabs (dy - en_y b') <= Rabs (dy - en_y b) /\
    (en_x b <= en_x b' <= dx \/ dx <= en_x b' <= en_x b) /\
    (en_y b <= en_y b' <= dy \/ dy <= en_y b' <= en_y b) /\
    en_speed b' = en_speed b.
Proof.
  intros Hs Hw Hh.
  destruct (gen_dest_in_bounds g r1 r2 Hw Hh) as (nd & Hnd & Hbx & Hby).
  set (d := if RandomWalkEnemy.arrived e then nd else rw_destination e).
  assert (Hd : (if RandomWalkEnemy.arrived e
                then RandomWalkEnemy.gen_dest g r1 r2
                else Some (rw_destination e)) = Some d).
  { unfold d. now destruct (RandomWalkEnemy.arrived e). }
  destruct (RandomWalk_update_towards g e r1 r2 d Hd) as (g' & Hup).
  eexists; exists g'. split; [exact Hup|].
  cbn [rw_base rw_destination en_x en_y en_speed].
  destruct (seek_spec (en_x (rw_base e)) (IZR (fst d))
              (en_speed (rw_base e)) Hs) as (Hx1 & _ & Hx3 & Hx4).
  destruct (seek_spec (en_y (rw_base e)) (IZR (snd d))
              (en_speed (rw_base e)) Hs) as (Hy1 & _ & Hy3 & Hy4).
  split.
  { unfold RandomWalkEnemy.arrived.
    rewrite andb_true_iff, !Reqb_true. tauto. }
  split.
  { intros Ha. unfold d. rewrite Ha. now repeat split. }
  split.
  { intros Ha. unfold d. now rewrite Ha. }
  now repeat split.
Qed.

Lemma RandomWalkEnemy_update_seeks_witness :
  exists e' g',
    RandomWalkEnemy.update game0 walker0 7 9 = Some (e', g') /\
    RandomWalkEnemy.gen_dest game0 7 9 = Some (rw_destination e') /\
    (0 <= fst (rw_destination e') <= 800)%Z /\
    (0 <= snd (rw_destination e') <= 500)%Z.
Proof.
  assert (Hs : 0 <= en_speed (rw_base walker0)) by (cbn; lra).
  assert (Hw : (0 <= canvas_width game0)%Z) by (cbn; lia).
  assert (Hh : (0 <= canvas_height game0)%Z) by (cbn; lia).
  destruct (RandomWalkEnemy_update_seeks game0 walker0 7 9 Hs Hw Hh)
    as (e' & g' & Hup & Harr & Hnew & _).
  exists e', g'. split; [exact Hup|].
  apply Hnew. apply Harr. split; reflexivity.
Defined.

(** ** C8: the patrol *)

Lemma choice_factor (r : Z) :
  Random.choice_1_or_1_1 r = 1 \/ Random.choice_1_or_1_1 r = 11 / 10.
Proof. unfold Random.choice_1_or_1_1. destruct (Z.even r); auto. Qed.

Lemma choice_factor_ge_1 (r : Z) : 1 <= Random.choice_1_or_1_1 r.
Proof. destruct (choice_factor r) as [-> | ->]; lra. Qed.

Lemma DemoEnemy_x_state_spec (g : TurtleAdventureGame) (e : DemoEnemy)
    (r : Z) :
  DemoEnemy.x_state g e r =
  if past_x_edge g (x_moved e)
  then mkDemo
         (mkEnemy (x_moved e) (en_y (de_base e)) (en_size (de_base e))
            (en_color (de_base e))
            (en_speed (de_base e) * Random.choice_1_or_1_1 r))
         (flip_x (de_x_state e)) (de_y_state e)
  else mkDemo (set_x (de_base e) (x_moved e)) (de_x_state e) (de_y_state e).
Proof.
  unfold DemoEnemy.x_state, DemoEnemy.state_move_right,
    DemoEnemy.state_move_left, DemoEnemy.check_x_border, x_moved,
    past_x_edge; cbv zeta.
  destruct (de_x_state e); cbn [de_base set_x en_x];
    destruct (_ || _); reflexivity.
Qed.

Lemma DemoEnemy_y_state_spec (g : TurtleAdventureGame) (e : DemoEnemy)
    (r : Z) :
  DemoEnemy.y_state g e r =
  if past_y_edge g (y_moved e)
  then mkDemo
         (mkEnemy (en_x (de_base e)) (y_moved e) (en_size (de_base e))
            (en_color (de_base e))
            (en_speed (de_base e) * Random.choice_1_or_1_1 r))
         (de_x_state e) (flip_y (de_y_state e))
  else mkDemo (set_y (de_base e) (y_moved e)) (de_x_state e) (de_y_state e).
Proof.
  unfold DemoEnemy.y_state, DemoEnemy.state_move_down,
    DemoEnemy.state_move_up, DemoEnemy.check_y_border, y_moved,
    past_y_edge; cbv zeta.
  destruct (de_y_state e); cbn [de_base set_y en_y];
    destruct (_ || _); reflexivity.
Qed.

Lemma DemoEnemy_x_state_speed (g : TurtleAdventureGame) (e : DemoEnemy)
    (r : Z) :
  0 <= en_speed (de_base e) ->
  en_speed (de_base e) <= en_speed (de_base (DemoEnemy.x_state g e r)).
Proof.
  intros Hs. rewrite DemoEnemy_x_state_spec.
  pose proof (choice_factor_ge_1 r).
  destruct (past_x_edge _ _); cbn; nra.
Qed.

Lemma DemoEnemy_y_state_speed (g : TurtleAdventureGame) (e : DemoEnemy)
    (r : Z) :
  0 <= en_speed (de_base e) ->
  en_speed (de_base e) <= en_speed (de_base (DemoEnemy.y_state g e r)).
Proof.
  intros Hs. rewrite DemoEnemy_y_state_spec.
  pose proof (choice_factor_ge_1 r).
  destruct (past_y_edge _ _); cbn; nra.
Qed.

Lemma DemoEnemy_update_speed (g : TurtleAdventureGame) (e : DemoEnemy)
    (rx ry : Z) :
  0 <= en_speed (de_base e) ->
  en_speed (de_base e)
    <= en_speed (de_base (fst (DemoEnemy.update g e rx ry))).
Proof.
  intros Hs. unfold DemoEnemy.update; cbv zeta; cbn [fst].
  pose proof (DemoEnemy_x_state_speed g e rx Hs) as Hx.
  pose proof (DemoEnemy_y_state_speed g (DemoEnemy.x_state g e rx) ry) as Hy.
  lra.
Qed.

Lemma DemoEnemy_run_speed (draws : list (Z * Z)) :
  forall g e,
    0 <= en_speed (de_base e) ->
    en_speed (de_base e) <= en_speed (de_base (fst (DemoEnemy_run draws g e))).
Proof.
  induction draws as [|[rx ry] draws IH]; intros g e Hs; cbn [DemoEnemy_run].
  - cbn. lra.
  - pose proof (DemoEnemy_update_speed g e rx ry Hs) as Hstep.
    destruct (DemoEnemy.update g e rx ry) as [e1 g1]. cbn [fst] in Hstep.
    assert (Hs1 : 0 <= en_speed (de_base e1)) by lra.
    specialize (IH g1 e1 Hs1). lra.
Qed.

(** C8.  A patrol holds one direction state per axis, and an update runs
    the x step and then the y step.  A step that takes the patrol past a
    screen edge on its axis flips that axis's state, leaves the other
    axis's state alone and multiplies the speed by a factor of {1, 1.1};
    a step that does not leaves both states and the speed as they are.
    So over every run of updates the speed of a patrol of non-negative
    speed never decreases.  A patrol at the right edge moving right with
    speed 4 is moving left after the update, with a speed of at least 4. *)
Theorem DemoEnemy_bounce (g : TurtleAdventureGame) (e : DemoEnemy)
    (rx ry : Z) :
  let ex := DemoEnemy.x_state g e rx in
  let e' := fst (DemoEnemy.update g e rx ry) in
  e' = DemoEnemy.y_state g ex ry /\
  de_y_state ex = de_y_state e /\
  (past_x_edge g (x_moved e) = true ->
   de_x_state ex = flip_x (de_x_state e) /\
   (en_speed (de_base ex) = en_speed (de_base e) * 1 \/
    en_speed (de_base ex) = en_speed (de_base e) * (11 / 10))) /\
  (past_x_edge g (x_moved e) = false ->
   de_x_state ex = de_x_state e /\
   en_speed (de_base ex) = en_speed (de_base e)) /\
  de_x_state e' = de_x_state ex /\
  (past_y_edge g (y_moved ex) = true ->
   de_y_state e' = flip_y (de_y_state ex) /\
   (en_speed (de_base e') = en_speed (de_base ex) * 1 \/
    en_speed (de_base e') = en_speed (de_base ex) * (11 / 10))) /\
  (past_y_edge g (y_moved ex) = false ->
   de_y_state e' = de_y_state ex /\
   en_speed (de_base e') = en_speed (de_base ex)) /\
  (0 <= en_speed (de_base e) ->
   forall draws,
     en_speed (de_base e)
       <= en_speed (de_base (fst (DemoEnemy_run draws g e)))) /\
  (en_x (de_base e) = IZR (canvas_width g) ->
   de_x_state e = Sx_move_right ->
   en_speed (de_base e) = 4 ->
   de_x_state e' = Sx_move_left /\ 4 <= en_speed (de_base e')).
Proof.
  intros ex e'.
  assert (He' : e' = DemoEnemy.y_state g ex ry) by reflexivity.
  assert (Hxt : past_x_edge g (x_moved e) = true ->
          de_x_state ex = flip_x (de_x_state e) /\
          (en_speed (de_base ex) = en_speed (de_base e) * 1 \/
           en_speed (de_base ex) = en_speed (de_base e) * (11 / 10))).
  { intros Hp. unfold ex. rewrite DemoEnemy_x_state_spec, Hp.
    cbn [de_x_state de_base en_speed]. split; [reflexivity|].
    destruct (choice_factor rx) as [-> | ->]; auto. }
  assert (Hyside : de_x_state e' = de_x_state ex).
  { rewrite He', DemoEnemy_y_state_spec.
    now destruct (past_y_edge _ _). }
  split; [exact He'|]. split.
  { unfold ex. rewrite DemoEnemy_x_state_spec.
    now destruct (past_x_edge _ _). }
  split; [exact Hxt|]. split.
  { intros Hp. unfold ex. rewrite DemoEnemy_x_state_spec, Hp.
    now split. }
  split; [exact Hyside|]. split.
  { intros Hp. rewrite He', DemoEnemy_y_state_spec, Hp.
    cbn [de_y_state de_base en_speed]. split; [reflexivity|].
    destruct (choice_factor ry) as [-> | ->]; auto. }
  split.
  { intros Hp. rewrite He', DemoEnemy_y_state_spec, Hp. now split. }
  split.
  { intros Hs draws. now apply DemoEnemy_run_speed. }
  intros Hx Hst Hv.
  assert (Hp : past_x_edge g (x_moved e) = true).
  { unfold past_x_edge, x_moved. rewrite Hst, Hx, Hv.
    apply orb_true_iff; right. apply Rltb_true. lra. }
  destruct (Hxt Hp) as (Hflip & _).
  split.
  - rewrite Hyside, Hflip, Hst. reflexivity.
  - rewrite <- Hv. apply DemoEnemy_update_speed. lra.
Qed.

Lemma DemoEnemy_bounce_witness :
  de_x_state (fst (DemoEnemy.update game0 patrol_at_edge 1 0))
    = Sx_move_left /\
  4 <= en_speed (de_base (fst (DemoEnemy.update game0 patrol_at_edge 1 0)))
  /\
  4 <= en_speed (de_base (fst (DemoEnemy_run [(1, 0); (0, 1); (1, 1)]%Z
                                 game0 patrol_at_edge))).
Proof.
  pose proof (DemoEnemy_bounce game0 patrol_at_edge 1 0)
    as (_ & _ & _ & _ & _ & _ & _ & Hrun & Hedge).
  assert (Hs : 0 <= en_speed (de_base patrol_at_edge)) by (cbn; lra).
  destruct (Hedge eq_refl eq_refl eq_refl) as (Hl & Hv).
  split; [exact Hl|]. split; [exact Hv|].
  exact (Hrun Hs [(1, 0); (0, 1); (1, 1)]%Z).
Defined.

(** ** C9: the diagonal sweep never divides by zero *)

Lemma hypotenuse_ge_second (d : R * R) :
  0 <= snd d -> snd d <= CrossEnemy.hypotenuse d.
Proof.
  intros Hd. unfold CrossEnemy.hypotenuse.
  apply Rle_trans with (sqrt (snd d ^ 2)).
  - rewrite sqrt_pow2_abs, Rabs_right; lra.
  - apply sqrt_le_1_alt. pose proof (pow2_ge_0 (fst d)). lra.
Qed.

Lemma truediv_defined (a b : R) :
  0 < b -> CrossEnemy.truediv a b = Some (a / b).
Proof.
  intros Hb. unfold CrossEnemy.truediv.
  destruct (Req_dec_T b 0); [lra | reflexivity].
Qed.

(** C9.  In both movement states of the diagonal sweep the branch that
    divides by the hypotenuse is entered only under the state's guard, and
    under the guard the vector being normalised has a vertical component
    of at least 10, hence a length of at least 10: the divisor is never
    zero.  So at every position, in either state, the state's step and
    the whole update return normally. *)
Theorem CrossEnemy_division_guarded (g : TurtleAdventureGame)
    (e : CrossEnemy) :
  (CrossEnemy.guard_down g e = true ->
   10 <= CrossEnemy.hypotenuse (CrossEnemy.delta_down g e)) /\
  (CrossEnemy.guard_up e = true ->
   10 <= CrossEnemy.hypotenuse (CrossEnemy.delta_up g e)) /\
  (exists e', CrossEnemy.move_down_state g e = Some e') /\
  (exists e', CrossEnemy.move_up_state g e = Some e') /\
  (exists e' g', CrossEnemy.update g e = Some (e', g')).
Proof.
  assert (Hd : CrossEnemy.guard_down g e = true ->
               10 <= CrossEnemy.hypotenuse (CrossEnemy.delta_down g e)).
  { intros Hg. unfold CrossEnemy.guard_down in Hg. bool_to_prop.
    etransitivity; [|apply hypotenuse_ge_second];
      cbn [snd CrossEnemy.delta_down]; lra. }
  assert (Hu : CrossEnemy.guard_up e = true ->
               10 <= CrossEnemy.hypotenuse (CrossEnemy.delta_up g e)).
  { intros Hg. unfold CrossEnemy.guard_up in Hg. bool_to_prop.
    etransitivity; [|apply hypotenuse_ge_second];
      cbn [snd CrossEnemy.delta_up]; lra. }
  assert (Hmd : exists e', CrossEnemy.move_down_state g e = Some e').
  { unfold CrossEnemy.move_down_state; cbv zeta.
    destruct (CrossEnemy.guard_down g e) eqn:Hg; [|eexists; reflexivity].
    specialize (Hd eq_refl).
    rewrite !truediv_defined by lra. eexists; reflexivity. }
  assert (Hmu : exists e', CrossEnemy.move_up_state g e = Some e').
  { unfold CrossEnemy.move_up_state; cbv zeta.
    destruct (CrossEnemy.guard_up e) eqn:Hg; [|eexists; reflexivity].
    specialize (Hu eq_refl).
    rewrite !truediv_defined by lra. eexists; reflexivity. }
  repeat split; try assumption.
  unfold CrossEnemy.update, CrossEnemy.state.
  destruct (ce_state e).
  - destruct Hmd as (e' & ->). eexists; eexists; reflexivity.
  - destruct Hmu as (e' & ->). eexists; eexists; reflexivity.
Qed.

Lemma CrossEnemy_division_guarded_witness :
  10 <= CrossEnemy.hypotenuse (CrossEnemy.delta_down game0 sweeper0) /\
  exists e' g', CrossEnemy.update game0 sweeper0 = Some (e', g').
Proof.
  pose proof (CrossEnemy_division_guarded game0 sweeper0)
    as (Hd & _ & _ & _ & Hup).
  split; [|exact Hup].
  apply Hd. unfold CrossEnemy.guard_down. apply Rleb_true. cbn. lra.
Defined.

(** ** C4 and C5: the generator's waves *)

Lemma spawn_loop (n : nat) (s : Element) (g : TurtleAdventureGame) :
  Nat.iter n (fun g => Game.add_element g s) g =
  set_elements g (elements g ++ repeat s n).
Proof.
  induction n as [|n IH].
  - destruct g; cbn. now rewrite app_nil_r.
  - rewrite Nat.iter_succ, IH. unfold Game.add_element, set_elements; cbn.
    rewrite <- app_assoc, <- repeat_cons. reflexivity.
Qed.

Lemma count_kind_app (k : EnemyKind) (l1 l2 : list Element) :
  count_kind k (l1 ++ l2) = (count_kind k l1 + count_kind k l2)%nat.
Proof. unfold count_kind. now rewrite filter_app, length_app. Qed.

Lemma count_kind_repeat (k : EnemyKind) (s : Element) (n : nat) :
  count_kind k (repeat s n) = if is_kind k s then n else 0%nat.
Proof.
  unfold count_kind. induction n as [|n IH]; cbn [repeat filter].
  - now destruct (is_kind k s).
  - destruct (is_kind k s) eqn:Hk; cbn [List.length]; now rewrite IH.
Qed.

Lemma create_enemy_elements (gen : EnemyGenerator)
    (g : TurtleAdventureGame) :
  gen_level gen = level g ->
  EnemyGenerator.create_enemy gen g =
  set_elements g (elements g ++ baseline_wave (level g)).
Proof.
  intros Hl.
  unfold EnemyGenerator.create_enemy, EnemyGenerator.create_random,
    EnemyGenerator.create_chasing, EnemyGenerator.create_fencing,
    EnemyGenerator.create_cross, EnemyGenerator.for_range; cbv zeta.
  rewrite !spawn_loop. unfold set_elements, baseline_wave; cbn.
  rewrite Hl, <- !app_assoc. reflexivity.
Qed.

Lemma create_chasing_elements (gen : EnemyGenerator) (num : option Q)
    (g : TurtleAdventureGame) :
  EnemyGenerator.create_chasing gen num g =
  set_elements g
    (elements g ++
     repeat chasing_spawn (Z.to_nat (Qceiling (chasing_base gen num / 3)))).
Proof.
  unfold EnemyGenerator.create_chasing, EnemyGenerator.for_range; cbv zeta.
  now rewrite spawn_loop.
Qed.

(** A quarter-level sub-wave is sized by the twelfth of the level. *)
Lemma quarter_level_base (L : Z) :
  (chasing_base (mkGenerator L) (Some (inject_Z L / 4)) / 3
   == inject_Z L / 12)%Q.
Proof.
  unfold chasing_base; cbn [gen_level].
  destruct (Qeq_bool (inject_Z L / 4) 0) eqn:Hz.
  - apply Qeq_bool_eq in Hz.
    assert (H0 : (inject_Z L == 0)%Q).
    { setoid_replace (inject_Z L) with (inject_Z L / 4 * 4)%Q by field.
      rewrite Hz. reflexivity. }
    rewrite H0. reflexivity.
  - field.
Qed.

Lemma baseline_wave_counts (L : Z) :
  Z.of_nat (count_kind KRandomWalk (baseline_wave L)) = Z.max 0 (2 * L - 1) /\
  Z.of_nat (count_kind KChasing (baseline_wave L))
    = Z.max 0 (Qceiling (inject_Z L / 3)) /\
  Z.of_nat (count_kind KFencing (baseline_wave L))
    = Z.max 0 (Qceiling (inject_Z L / 2)) /\
  Z.of_nat (count_kind KCross (baseline_wave L)) = Z.max 0 (3 * L - 2) /\
  count_kind KDemo (baseline_wave L) = 0%nat.
Proof.
  unfold baseline_wave.
  rewrite !count_kind_app, !count_kind_repeat.
  cbn [is_kind EnemyKind_eqb sp_kind random_walk_spawn chasing_spawn
    fencing_spawn cross_spawn].
  repeat split; lia.
Qed.

Lemma init_game_generator (w h L : Z) :
  fst (init_game w h L) = mkGenerator L /\
  level (snd (init_game w h L)) = L /\
  elements (snd (init_game w h L)) = [ElWaypoint; ElHome; ElPlayer] /\
  canvas_width (snd (init_game w h L)) = w /\
  canvas_height (snd (init_game w h L)) = h.
Proof. repeat split. Qed.

(** C4.  For every integer level L, the baseline wave that
    [create_enemy] adds is max(0, 2L - 1) random-walk enemies, then
    max(0, ceil(L/3)) chasing enemies, then max(0, ceil(L/2)) fencing
    enemies, then max(0, 3L - 2) cross-sweep enemies, with the sizes and
    colours of their classes, and nothing else; a non-positive count
    spawns no enemy of the category, and the call always returns.  For the
    game that [init_game] builds at level 3 the wave has 5, 1, 2 and 7
    of them. *)
Theorem create_enemy_baseline_wave (g : TurtleAdventureGame) :
  let L := level g in
  let g' := EnemyGenerator.create_enemy (mkGenerator L) g in
  g' = set_elements g (elements g ++ baseline_wave L) /\
  elements g' = elements g ++ baseline_wave L /\
  Z.of_nat (count_kind KRandomWalk (baseline_wave L)) = Z.max 0 (2 * L - 1) /\
  Z.of_nat (count_kind KChasing (baseline_wave L))
    = Z.max 0 (Qceiling (inject_Z L / 3)) /\
  Z.of_nat (count_kind KFencing (baseline_wave L))
    = Z.max 0 (Qceiling (inject_Z L / 2)) /\
  Z.of_nat (count_kind KCross (baseline_wave L)) = Z.max 0 (3 * L - 2) /\
  count_kind KDemo (baseline_wave L) = 0%nat /\
  (forall w h,
     let gen3 := fst (init_game w h 3) in
     let g3 := EnemyGenerator.create_enemy gen3 (snd (init_game w h 3)) in
     elements g3 = [ElWaypoint; ElHome; ElPlayer] ++ baseline_wave 3 /\
     count_kind KRandomWalk (elements g3) = 5%nat /\
     count_kind KChasing (elements g3) = 1%nat /\
     count_kind KFencing (elements g3) = 2%nat /\
     count_kind KCross (elements g3) = 7%nat).
Proof.
  intros L g'.
  assert (Hg' : g' = set_elements g (elements g ++ baseline_wave L))
    by (apply create_enemy_elements; reflexivity).
  split; [exact Hg'|]. split; [now rewrite Hg'|].
  destruct (baseline_wave_counts L) as (H1 & H2 & H3 & H4 & H5).
  do 5 (split; [assumption|]).
  intros w h gen3 g3.
  assert (H3e : elements g3
                = [ElWaypoint; ElHome; ElPlayer] ++ baseline_wave 3).
  { unfold g3, gen3.
    rewrite create_enemy_elements by reflexivity. reflexivity. }
  rewrite H3e. repeat split.
Qed.

(** The levels at and below zero spawn nothing; level 1 spawns one enemy
    of each category. *)
Example baseline_wave_degenerate :
  baseline_wave 0 = [] /\ baseline_wave (-2) = [] /\
  baseline_wave 1 =
    [random_walk_spawn; chasing_spawn; fencing_spawn; cross_spawn].
Proof. repeat split. Qed.

(** ** C5: the timers of the constructor *)

(** Against C5 as stated.  At level 8 the argument of the three late
    callbacks is 8/4 = 2, and a callback that fires spawns one chasing
    enemy, not two. *)
Lemma sub_wave_is_not_a_quarter :
  let gen := fst (EnemyGenerator.init game0 8) in
  let g := snd (EnemyGenerator.init game0 8) in
  map task_callback (timers g) =
    [CbCreateEnemy; CbCreateChasing (inject_Z 8 / 4);
     CbCreateChasing (inject_Z 8 / 4); CbCreateChasing (inject_Z 8 / 4)] /\
  (inject_Z 8 / 4 == 2)%Q /\
  elements (EnemyGenerator.fire gen (CbCreateChasing (inject_Z 8 / 4)) g)
    = [chasing_spawn] /\
  ~ (inject_Z (Z.of_nat (count_kind KChasing
       (elements (EnemyGenerator.fire gen
                    (CbCreateChasing (inject_Z 8 / 4)) g))))
     == inject_Z 8 / 4)%Q.
Proof.
  intros gen g.
  assert (He : elements (EnemyGenerator.fire gen
                 (CbCreateChasing (inject_Z 8 / 4)) g) = [chasing_spawn]).
  { unfold EnemyGenerator.fire. rewrite create_chasing_elements.
    reflexivity. }
  split; [reflexivity|]. split; [reflexivity|]. split; [exact He|].
  rewrite He. intros H. discriminate H.
Qed.

(** C5, as the code has it.  Constructing the generator hands four
    one-shot timers to [after] and spawns nothing yet: one of 100 ms that
    runs [create_enemy], the baseline wave, and exactly three of 10 s that
    run [create_chasing] with [num = level/4].  Such a callback spawns
    [ceil(num/3)], that is max(0, ceil(level/12)), chasing enemies and
    sets no further timer. *)
Theorem EnemyGenerator_init_timers (g : TurtleAdventureGame) (L : Z) :
  let gen := fst (EnemyGenerator.init g L) in
  let g0 := snd (EnemyGenerator.init g L) in
  gen = mkGenerator L /\
  timers g0 =
    timers g ++
    [mkTask 100 CbCreateEnemy;
     mkTask 10000 (CbCreateChasing (inject_Z L / 4));
     mkTask 10000 (CbCreateChasing (inject_Z L / 4));
     mkTask 10000 (CbCreateChasing (inject_Z L / 4))] /\
  elements g0 = elements g /\
  (forall g1,
     EnemyGenerator.fire gen CbCreateEnemy g1
       = EnemyGenerator.create_enemy gen g1) /\
  (forall g1,
     let g2 :=
       EnemyGenerator.fire gen (CbCreateChasing (inject_Z L / 4)) g1 in
     elements g2 =
       elements g1 ++
       repeat chasing_spawn (Z.to_nat (Qceiling (inject_Z L / 12))) /\
     Z.of_nat (List.length (elements g2))
       = (Z.of_nat (List.length (elements g1))
          + Z.max 0 (Qceiling (inject_Z L / 12)))%Z /\
     timers g2 = timers g1).
Proof.
  intros gen g0.
  split; [reflexivity|]. split.
  { unfold g0, EnemyGenerator.init, EnemyGenerator.for_range.
    change (Z.to_nat 3) with 3%nat. unfold Game.after; cbn.
    rewrite <- !app_assoc. reflexivity. }
  split; [reflexivity|]. split; [reflexivity|].
  intros g1 g2.
  assert (He : elements g2 =
               elements g1 ++
               repeat chasing_spawn (Z.to_nat (Qceiling (inject_Z L / 12)))).
  { unfold g2, EnemyGenerator.fire. rewrite create_chasing_elements.
    cbn [elements set_elements]. do 3 f_equal.
    apply Qceiling_comp. apply quarter_level_base. }
  split; [exact He|]. split.
  - rewrite He, length_app, repeat_length. lia.
  - unfold g2, EnemyGenerator.fire. now rewrite create_chasing_elements.
Qed.

(** * Further properties *)

(** ** The player's walk *)

Lemma sqrt_scaled (a b k : R) :
  sqrt ((a * k) ^ 2 + (b * k) ^ 2) = Rabs k * sqrt (a ^ 2 + b ^ 2).
Proof.
  replace ((a * k) ^ 2 + (b * k) ^ 2) with (k ^ 2 * (a ^ 2 + b ^ 2)) by ring.
  rewrite sqrt_mult by (try apply sum_squares_nonneg; apply pow2_ge_0).
  now rewrite sqrt_pow2_abs.
Qed.

(** After the step, the distance to a waypoint that was [d > 0] away is
    [|d - speed|]. *)
Lemma stepped_distance (p : Player) (w : Waypoint) :
  0 < Turtle.distance (pl_turtle p) (wp_x w) (wp_y w) ->
  Turtle.distance (stepped p w) (wp_x w) (wp_y w) =
  Rabs (Turtle.distance (pl_turtle p) (wp_x w) (wp_y w) - Player.speed p).
Proof.
  intros Hd.
  set (d := Turtle.distance (pl_turtle p) (wp_x w) (wp_y w)) in *.
  assert (Hd0 : d <> 0) by lra.
  unfold stepped, Turtle.towards; cbv zeta. fold d.
  destruct (Req_dec_T d 0) as [H0|_]; [lra|].
  unfold Turtle.distance at 1, Turtle.forward, Turtle.setheading.
  cbn [Turtle.xcor Turtle.ycor Turtle.heading fst snd].
  set (s := Player.speed p).
  set (a := wp_x w - Turtle.xcor (pl_turtle p)).
  set (b := wp_y w - Turtle.ycor (pl_turtle p)).
  replace (wp_x w - (Turtle.xcor (pl_turtle p) + s * (a / d)))
    with (a * ((d - s) / d)) by (unfold a; field; exact Hd0).
  replace (wp_y w - (Turtle.ycor (pl_turtle p) + s * (b / d)))
    with (b * ((d - s) / d)) by (unfold b; field; exact Hd0).
  rewrite sqrt_scaled. change (sqrt (a ^ 2 + b ^ 2)) with d.
  unfold Rdiv. rewrite Rabs_mult, (Rabs_right (/ d)).
  - field. exact Hd0.
  - apply Rle_ge. left. now apply Rinv_0_lt_compat.
Qed.



(** X1.  With the waypoint active and [d > 0] away, one [Player.update]
    leaves the player [|d - speed|] away from it: [d - speed] closer when
    the waypoint is at least a step away, and past it by [speed - d] when
    it is nearer than a step. *)
Theorem Player_update_remaining_distance (g : TurtleAdventureGame) :
  is_active (waypoint g) = true ->
  0 < waypoint_distance g ->
  waypoint_distance (Player.update g) =
  Rabs (waypoint_distance g - Player.speed (player g)).
Proof.
  intros Ha Hd.
  destruct (Player_update_active g Ha) as (Ht & _ & Hx & Hy & _).
  unfold waypoint_distance in *. rewrite Ht, Hx, Hy.
  now apply stepped_distance.
Qed.

Lemma Player_update_remaining_distance_witness :
  waypoint_distance (Player.update game_walking) = Rabs (3 - 5).
Proof.
  assert (Hd : waypoint_distance game_walking = 3).
  { unfold waypoint_distance, game_walking, click, place, Waypoint.activate.
    cbn [player waypoint set_waypoint set_player pl_turtle wp_x wp_y].
    replace 250 with (Turtle.ycor (Turtle.mk 50 250 (1, 0))) at 2
      by reflexivity.
    rewrite distance_same_y. cbn [Turtle.xcor].
    unfold Rabs; destruct (Rcase_abs _); lra. }
  assert (Hpos : 0 < waypoint_distance game_walking) by (rewrite Hd; lra).
  pose proof (Player_update_remaining_distance game_walking eq_refl Hpos)
    as H.
  rewrite Hd in H. exact H.
Defined.



(** One update of a player on its way, as the walk sees it. *)
Lemma Player_update_walk (g : TurtleAdventureGame) :
  is_active (waypoint g) = true ->
  0 < Player.speed (player g) ->
  0 < waypoint_distance g ->
  Player.speed (player (Player.update g)) = Player.speed (player g) /\
  waypoint_distance (Player.update g)
    = Rabs (waypoint_distance g - Player.speed (player g)) /\
  is_active (waypoint (Player.update g))
    = negb (Rltb (waypoint_distance (Player.update g))
                 (Player.speed (player g))).
Proof.
  intros Ha Hs Hd.
  destruct (Player_update_active g Ha) as (Ht & Hsp & Hx & Hy & Hact).
  assert (Hdist : waypoint_distance (Player.update g)
                  = Rabs (waypoint_distance g - Player.speed (player g))).
  { unfold waypoint_distance in *. rewrite Ht, Hx, Hy.
    now apply stepped_distance. }
  split; [exact Hsp|]. split; [exact Hdist|].
  rewrite Hact. unfold waypoint_distance at 1. now rewrite Ht, Hx, Hy.
Qed.

(** X3.  A player of positive speed whose active waypoint is less than
    [n + 2] steps away (and not under it) gets there: after at least one
    and at most [n + 1] updates the waypoint is inactive and the player is
    less than a step from it. *)
Theorem Player_reaches_waypoint (n : nat) (g : TurtleAdventureGame) :
  is_active (waypoint g) = true ->
  0 < Player.speed (player g) ->
  0 < waypoint_distance g < (INR n + 2) * Player.speed (player g) ->
  exists m,
    (1 <= m <= S n)%nat /\
    is_active (waypoint (Nat.iter m Player.update g)) = false /\
    waypoint_distance (Nat.iter m Player.update g)
      < Player.speed (player g).
Proof.
  revert g. induction n as [|n IH]; intros g Ha Hs Hd;
    destruct (Player_update_walk g Ha Hs (proj1 Hd)) as (Hsp & Hdist & Hact).
  - exists 1%nat. cbn [Nat.iter nat_rect INR] in *.
    assert (Hlt : waypoint_distance (Player.update g)
                  < Player.speed (player g)).
    { rewrite Hdist. unfold Rabs; destruct (Rcase_abs _); lra. }
    split; [lia|]. split; [|exact Hlt].
    rewrite Hact. apply negb_false_iff, Rltb_true, Hlt.
  - rewrite S_INR in Hd.
    destruct (Rlt_le_dec (waypoint_distance g)
                (2 * Player.speed (player g))) as [Hnear|Hfar].
    + exists 1%nat. cbn [Nat.iter nat_rect].
      assert (Hlt : waypoint_distance (Player.update g)
                    < Player.speed (player g)).
      { rewrite Hdist. unfold Rabs; destruct (Rcase_abs _); lra. }
      split; [lia|]. split; [|exact Hlt].
      rewrite Hact. apply negb_false_iff, Rltb_true, Hlt.
    + assert (Hd' : waypoint_distance (Player.update g)
                    = waypoint_distance g - Player.speed (player g)).
      { rewrite Hdist. apply Rabs_right. lra. }
      assert (Ha' : is_active (waypoint (Player.update g)) = true).
      { rewrite Hact. apply negb_true_iff, Rltb_false. lra. }
      destruct (IH (Player.update g) Ha') as (m & Hm & Hin & Hlt).
      * rewrite Hsp. exact Hs.
      * rewrite Hsp, Hd'. lra.
      * exists (S m). rewrite Nat.iter_succ_r. rewrite Hsp in Hlt.
        split; [lia|]. split; assumption.
Qed.


(** The player at (50, 250) with speed 5 and the waypoint clicked at
    (68, 250), 18 away: it arrives within four updates. *)
Lemma Player_reaches_waypoint_witness :
  exists m,
    (1 <= m <= 4)%nat /\
    is_active (waypoint (Nat.iter m Player.update
                           (click (place game0 50 250 5) 68 250))) = false.
Proof.
  set (g := click (place game0 50 250 5) 68 250).
  assert (Hd : waypoint_distance g = 18).
  { unfold waypoint_distance, g, click, place, Waypoint.activate.
    cbn [player waypoint set_waypoint set_player pl_turtle wp_x wp_y].
    replace 250 with (Turtle.ycor (Turtle.mk 50 250 (1, 0))) at 2
      by reflexivity.
    rewrite distance_same_y. cbn [Turtle.xcor].
    unfold Rabs; destruct (Rcase_abs _); lra. }
  assert (Hs : 0 < Player.speed (player g)) by (cbn; lra).
  assert (Hb : 0 < waypoint_distance g
               < (INR 3 + 2) * Player.speed (player g)).
  { rewrite Hd. cbn. lra. }
  destruct (Player_reaches_waypoint 3 g eq_refl Hs Hb) as (m & Hm & Hin & _).
  exists m. split; assumption.
Defined.

(** ** What [Player.update] leaves alone *)

Lemma Player_update_frame_aux (g : TurtleAdventureGame) :
  home (Player.update g) = home g /\
  pl_speed (player (Player.update g)) = pl_speed (player g) /\
  wp_x (waypoint (Player.update g)) = wp_x (waypoint g) /\
  wp_y (waypoint (Player.update g)) = wp_y (waypoint g) /\
  elements (Player.update g) = elements g /\
  timers (Player.update g) = timers g /\
  level (Player.update g) = level g /\
  canvas_width (Player.update g) = canvas_width g /\
  canvas_height (Player.update g) = canvas_height g.
Proof.
  unfold Player.update; cbv zeta.
  destruct (Home.contains _ _ _); cbn;
    destruct (is_active (waypoint g)); cbn;
    try destruct (Rltb _ _); cbn; repeat split.
Qed.

Lemma Player_update_idle (g : TurtleAdventureGame) :
  Home.contains (home g) (Player.x (player g)) (Player.y (player g))
    = false ->
  is_active (waypoint g) = false ->
  Player.update g = g.
Proof.
  intros Hc Ha. unfold Player.update; cbv zeta. now rewrite Hc, Ha.
Qed.

(** X4.  [Player.update] never moves the home or the waypoint, never
    changes the player's speed, the registered elements, the timers, the
    level or the canvas; it never activates a waypoint; and it touches
    the canvas texts and the loop only by winning: away from home they are
    unchanged, and with the waypoint inactive as well the whole game is
    returned as it was. *)
Theorem Player_update_frame (g : TurtleAdventureGame) :
  (home (Player.update g) = home g /\
   pl_speed (player (Player.update g)) = pl_speed (player g) /\
   wp_x (waypoint (Player.update g)) = wp_x (waypoint g) /\
   wp_y (waypoint (Player.update g)) = wp_y (waypoint g) /\
   elements (Player.update g) = elements g /\
   timers (Player.update g) = timers g /\
   level (Player.update g) = level g /\
   canvas_width (Player.update g) = canvas_width g /\
   canvas_height (Player.update g) = canvas_height g) /\
  (is_active (waypoint g) = false ->
   is_active (waypoint (Player.update g)) = false) /\
  (Home.contains (home g) (Player.x (player g)) (Player.y (player g))
     = false ->
   texts (Player.update g) = texts g /\
   running (Player.update g) = running g /\
   (is_active (waypoint g) = false -> Player.update g = g)).
Proof.
  split; [apply Player_update_frame_aux|]. split.
  - intros Ha. destruct (Player_update_inactive g Ha) as (_ & Hw & _).
    now rewrite Hw.
  - intros Hc. unfold Player.update; cbv zeta. rewrite Hc.
    destruct (is_active (waypoint g)) eqn:Ha.
    + destruct (Rltb _ _); repeat split; intros H; discriminate H.
    + repeat split.
Qed.

(** The player of [game0] at its starting point, with no waypoint set:
    the update returns the game as it was. *)
Lemma Player_update_frame_witness : Player.update game0 = game0.
Proof.
  destruct (Player_update_frame game0) as (_ & _ & Hidle).
  assert (Hc : Home.contains (home game0) (Player.x (player game0))
                 (Player.y (player game0)) = false).
  { destruct (Home.contains _ _ _) eqn:H; [|reflexivity].
    apply Home_contains_spec in H. cbn in H. lra. }
  destruct (Hidle Hc) as (_ & _ & Hsame). now apply Hsame.
Defined.

(** ** The game that [init_game] builds *)

Lemma init_game_layout (w h L : Z) :
  home (snd (init_game w h L))
    = mkHome (IZR (w - 100)) (IZR (h / 2)) 20 /\
  player (snd (init_game w h L))
    = mkPlayer (Turtle.mk 50 (IZR (h / 2)) (1, 0)) 5 /\
  waypoint (snd (init_game w h L)) = mkWaypoint 0 0 false.
Proof. repeat split. Qed.

(** X5.  In the game that [init_game] builds the player starts inside
    the home exactly when the screen is 140 to 160 wide; on any other
    screen the first [Player.update] returns the game as it was: nothing
    is won and nothing moves until the waypoint is clicked. *)
Theorem init_game_start (w h L : Z) :
  let g := snd (init_game w h L) in
  (Home.contains (home g) (Player.x (player g)) (Player.y (player g)) = true
   <-> (140 <= w <= 160)%Z) /\
  is_active (waypoint g) = false /\
  ((w < 140 \/ 160 < w)%Z -> Player.update g = g).
Proof.
  intros g.
  assert (Hiff : Home.contains (home g) (Player.x (player g))
                   (Player.y (player g)) = true <-> (140 <= w <= 160)%Z).
  { rewrite Home_contains_spec. unfold g.
    destruct (init_game_layout w h L) as (-> & -> & _).
    cbn. rewrite minus_IZR.
    split.
    - intros ((H1 & H2) & _). split; apply le_IZR; lra.
    - intros (H1 & H2). apply IZR_le in H1, H2. lra. }
  split; [exact Hiff|]. split.
  { unfold g. now destruct (init_game_layout w h L) as (_ & _ & ->). }
  intros Hw. apply Player_update_idle.
  - destruct (Home.contains (home g) (Player.x (player g))
                (Player.y (player g))); [|reflexivity].
    destruct Hiff as (Hin & _). specialize (Hin eq_refl). lia.
  - unfold g. now destruct (init_game_layout w h L) as (_ & _ & ->).
Qed.

(** On the 800 x 500 screen the first update changes nothing. *)
Lemma init_game_start_witness :
  Player.update (snd (init_game 800 500 1)) = snd (init_game 800 500 1).
Proof.
  destruct (init_game_start 800 500 1) as (_ & _ & Hidle).
  apply Hidle. right. lia.
Defined.

(** ** The chasing enemy *)

Lemma Rmax_0_minus_twice (a s t : R) :
  0 <= s -> 0 <= t ->
  Rmax 0 (Rmax 0 (a - s) - t) = Rmax 0 (a - (s + t)).
Proof.
  intros Hs Ht. unfold Rmax.
  repeat destruct (Rle_dec _ _); lra.
Qed.

Lemma seek_remaining (x d s : R) :
  0 <= s -> Rabs (d - seek x d s) = Rmax 0 (Rabs (d - x) - s).
Proof.
  intros Hs. destruct (seek_spec x d s Hs) as (_ & H & _).
  rewrite H. pose proof (Rabs_pos (d - x)).
  unfold Rmin, Rmax. repeat destruct (Rle_dec _ _); lra.
Qed.

Lemma check_hit_player (g : TurtleAdventureGame) (b : Enemy) :
  player (Enemy.check_hit g b) = player g /\
  home (Enemy.check_hit g b) = home g /\
  waypoint (Enemy.check_hit g b) = waypoint g /\
  canvas_width (Enemy.check_hit g b) = canvas_width g /\
  canvas_height (Enemy.check_hit g b) = canvas_height g.
Proof.
  unfold Enemy.check_hit. destruct (Enemy.hits_player g b); repeat split.
Qed.

Lemma ChasingEnemy_update_seek (g : TurtleAdventureGame) (e : ChasingEnemy) :
  ChasingEnemy.update g e =
  let b := ch_base e in
  let b' :=
    mkEnemy (seek (en_x b) (Player.x (player g)) (en_speed b))
      (seek (en_y b) (Player.y (player g)) (en_speed b))
      (en_size b) (en_color b) (en_speed b) in
  (mkChasing b' (ChasingEnemy.gen_player_loc g), Enemy.check_hit g b').
Proof.
  unfold ChasingEnemy.update, ChasingEnemy.update_x, ChasingEnemy.update_y,
    ChasingEnemy.gen_player_loc, seek; cbv zeta.
  cbn [ch_base ch_player_loc fst snd].
  destruct (Rltb (en_x (ch_base e)) _); cbn [ch_base ch_player_loc
    set_x en_x en_y en_speed fst snd];
    destruct (Rltb (en_y (ch_base e)) _); reflexivity.
Qed.

Lemma ChasingEnemy_run_succ_r (n : nat) :
  forall g e,
    ChasingEnemy_run (S n) g e =
    ChasingEnemy.update (snd (ChasingEnemy_run n g e))
      (fst (ChasingEnemy_run n g e)).
Proof.
  induction n as [|n IH]; intros g e.
  - cbn [ChasingEnemy_run fst snd]. now destruct (ChasingEnemy.update g e).
  - change (ChasingEnemy_run (S (S n)) g e)
      with (let '(e1, g1) := ChasingEnemy.update g e in
            ChasingEnemy_run (S n) g1 e1).
    change (ChasingEnemy_run (S n) g e)
      with (let '(e1, g1) := ChasingEnemy.update g e in
            ChasingEnemy_run n g1 e1).
    destruct (ChasingEnemy.update g e) as [e1 g1]. apply IH.
Qed.

Lemma ChasingEnemy_run_closes_in (n : nat) :
  forall g e,
    0 <= en_speed (ch_base e) ->
    let e' := fst (ChasingEnemy_run n g e) in
    let g' := snd (ChasingEnemy_run n g e) in
    player g' = player g /\
    en_speed (ch_base e') = en_speed (ch_base e) /\
    en_size (ch_base e') = en_size (ch_base e) /\
    Rabs (Player.x (player g) - en_x (ch_base e'))
      = Rmax 0 (Rabs (Player.x (player g) - en_x (ch_base e))
                - INR n * en_speed (ch_base e)) /\
    Rabs (Player.y (player g) - en_y (ch_base e'))
      = Rmax 0 (Rabs (Player.y (player g) - en_y (ch_base e))
                - INR n * en_speed (ch_base e)).
Proof.
  induction n as [|n IH]; intros g e Hs.
  - cbn [ChasingEnemy_run fst snd INR].
    repeat split;
      rewrite Rmult_0_l, Rminus_0_r, Rmax_right by apply Rabs_pos;
      reflexivity.
  - change (ChasingEnemy_run (S n) g e)
      with (let '(e1, g1) := ChasingEnemy.update g e in
            ChasingEnemy_run n g1 e1).
    rewrite ChasingEnemy_update_seek; cbv zeta.
    set (b1 := mkEnemy _ _ _ _ _).
    set (e1 := mkChasing b1 _). set (g1 := Enemy.check_hit g b1).
    destruct (check_hit_player g b1) as (Hp & _). fold g1 in Hp.
    destruct (IH g1 e1 Hs) as (IHp & IHs & IHz & IHx & IHy).
    cbv zeta in IHp, IHs, IHz, IHx, IHy.
    rewrite Hp in IHx, IHy.
    pose proof (pos_INR n) as Hn.
    assert (Hns : 0 <= INR n * en_speed (ch_base e)) by nra.
    rewrite S_INR.
    split; [congruence|]. split; [exact IHs|]. split; [exact IHz|].
    split.
    + rewrite IHx. unfold e1, b1; cbn [ch_base en_x en_speed].
      rewrite seek_remaining by exact Hs.
      rewrite Rmax_0_minus_twice by assumption. f_equal. ring.
    + rewrite IHy. unfold e1, b1; cbn [ch_base en_y en_speed].
      rewrite seek_remaining by exact Hs.
      rewrite Rmax_0_minus_twice by assumption. f_equal. ring.
Qed.

(** X6.  Against a player that stands still, [n] updates of a chasing
    enemy of non-negative speed bring it closer by [n * speed] on each
    axis on its own, down to zero: the distance that remains on an axis
    is [max(0, |player - enemy| - n * speed)].  The updates leave the
    player where it is. *)
Theorem ChasingEnemy_closes_in (n : nat) (g : TurtleAdventureGame)
    (e : ChasingEnemy) :
  0 <= en_speed (ch_base e) ->
  let e' := fst (ChasingEnemy_run n g e) in
  let g' := snd (ChasingEnemy_run n g e) in
  player g' = player g /\
  Rabs (Player.x (player g) - en_x (ch_base e'))
    = Rmax 0 (Rabs (Player.x (player g) - en_x (ch_base e))
              - INR n * en_speed (ch_base e)) /\
  Rabs (Player.y (player g) - en_y (ch_base e'))
    = Rmax 0 (Rabs (Player.y (player g) - en_y (ch_base e))
              - INR n * en_speed (ch_base e)).
Proof.
  intros Hs e' g'.
  destruct (ChasingEnemy_run_closes_in n g e Hs) as (Hp & _ & _ & Hx & Hy).
  now repeat split.
Qed.

(** The chaser of [chaser0], ten units right of the player of [game0]:
    three updates leave it four units away. *)
Lemma ChasingEnemy_closes_in_witness :
  Rabs (Player.x (player game0)
        - en_x (ch_base (fst (ChasingEnemy_run 3 game0 chaser0))))
  = Rmax 0 (Rabs (50 - 60) - INR 3 * 2).
Proof.
  assert (Hs : 0 <= en_speed (ch_base chaser0)) by (cbn; lra).
  destruct (ChasingEnemy_closes_in 3 game0 chaser0 Hs) as (_ & Hx & _).
  exact Hx.
Defined.

Lemma Rabs_zero_eq (a b : R) : Rabs (a - b) = 0 -> b = a.
Proof.
  intros H. unfold Rabs in H. destruct (Rcase_abs _); lra.
Qed.

Lemma hits_player_centred (g : TurtleAdventureGame) (b : Enemy) :
  0 < en_size b ->
  en_x b = Player.x (player g) -> en_y b = Player.y (player g) ->
  Enemy.hits_player g b = true.
Proof.
  intros Hz Hx Hy. apply hits_player_spec. rewrite Hx, Hy. lra.
Qed.

(** X7.  A chasing enemy of non-negative speed and positive size catches
    a player that stands still: if the player is within [(n + 1) * speed]
    on both axes, then after [n + 1] updates the enemy stands exactly on
    the player, the loop is stopped and the last text drawn is
    "You Lose". *)
Theorem ChasingEnemy_catches (n : nat) (g : TurtleAdventureGame)
    (e : ChasingEnemy) :
  0 <= en_speed (ch_base e) ->
  0 < en_size (ch_base e) ->
  Rabs (Player.x (player g) - en_x (ch_base e))
    <= INR (S n) * en_speed (ch_base e) ->
  Rabs (Player.y (player g) - en_y (ch_base e))
    <= INR (S n) * en_speed (ch_base e) ->
  let e' := fst (ChasingEnemy_run (S n) g e) in
  let g' := snd (ChasingEnemy_run (S n) g e) in
  en_x (ch_base e') = Player.x (player g) /\
  en_y (ch_base e') = Player.y (player g) /\
  running g' = false /\
  exists l, map txt_text (texts g') = l ++ ["You Lose"%string].
Proof.
  intros Hs Hz Hx Hy. cbv zeta.
  rewrite ChasingEnemy_run_succ_r.
  destruct (ChasingEnemy_run_closes_in n g e Hs)
    as (Hp & Hsn & Hzn & Hxn & Hyn).
  cbv zeta in Hp, Hsn, Hzn, Hxn, Hyn.
  set (en := fst (ChasingEnemy_run n g e)) in *.
  set (gn := snd (ChasingEnemy_run n g e)) in *.
  rewrite ChasingEnemy_update_seek; cbv zeta; cbn [fst snd ch_base en_x en_y].
  rewrite Hp, Hsn. rewrite S_INR in Hx, Hy.
  assert (Hlx : seek (en_x (ch_base en)) (Player.x (player g))
                  (en_speed (ch_base e)) = Player.x (player g)).
  { apply Rabs_zero_eq. rewrite seek_remaining, Hxn by exact Hs.
    rewrite Rmax_0_minus_twice.
    - apply Rmax_left. lra.
    - pose proof (pos_INR n). nra.
    - exact Hs. }
  assert (Hly : seek (en_y (ch_base en)) (Player.y (player g))
                  (en_speed (ch_base e)) = Player.y (player g)).
  { apply Rabs_zero_eq. rewrite seek_remaining, Hyn by exact Hs.
    rewrite Rmax_0_minus_twice.
    - apply Rmax_left. lra.
    - pose proof (pos_INR n). nra.
    - exact Hs. }
  rewrite Hlx, Hly. split; [reflexivity|]. split; [reflexivity|].
  unfold Enemy.check_hit. rewrite hits_player_centred.
  - split; [reflexivity|].
    exists (map txt_text (texts gn)). cbn. now rewrite map_app.
  - cbn [en_size]. now rewrite Hzn.
  - cbn [en_x]. now rewrite Hp.
  - cbn [en_y]. now rewrite Hp.
Qed.

(** The chaser ten units from the player, speed 2: caught after five
    updates. *)
Lemma ChasingEnemy_catches_witness :
  en_x (ch_base (fst (ChasingEnemy_run 5 game0 chaser0))) = 50 /\
  running (snd (ChasingEnemy_run 5 game0 chaser0)) = false.
Proof.
  assert (Hs : 0 <= en_speed (ch_base chaser0)) by (cbn; lra).
  assert (Hz : 0 < en_size (ch_base chaser0)) by (cbn; lra).
  assert (Hx : Rabs (Player.x (player game0) - en_x (ch_base chaser0))
               <= INR 5 * en_speed (ch_base chaser0)).
  { cbn. unfold Rabs; destruct (Rcase_abs _); lra. }
  assert (Hy : Rabs (Player.y (player game0) - en_y (ch_base chaser0))
               <= INR 5 * en_speed (ch_base chaser0)).
  { cbn. unfold Rabs; destruct (Rcase_abs _); lra. }
  destruct (ChasingEnemy_catches 4 game0 chaser0 Hs Hz Hx Hy)
    as (Hex & _ & Hr & _).
  split; [exact Hex | exact Hr].
Defined.

(** ** What is drawn and what is hit *)

Lemma hits_player_iff_box (g : TurtleAdventureGame) (b : Enemy) :
  Enemy.hits_player g b = true <->
  strictly_inside
    (en_x b - en_size b / 2, en_y b - en_size b / 2,
     en_x b + en_size b / 2, en_y b + en_size b / 2)
    (Player.x (player g)) (Player.y (player g)).
Proof. rewrite hits_player_spec. unfold strictly_inside. tauto. Qed.

(** X8.  For the four variants drawn as an oval or a rectangle, the
    enemy hits the player exactly when the player is strictly inside the
    shape's bounding box as [render] draws it; so an enemy of size zero or
    less, whose box is empty, never hits, and the game an update returns
    is then the game it was given. *)
Theorem hit_box_is_drawn_box (g : TurtleAdventureGame) :
  (forall e,
     Enemy.hits_player g (de_base e) = true <->
     strictly_inside (DemoEnemy.render e)
       (Player.x (player g)) (Player.y (player g))) /\
  (forall e,
     Enemy.hits_player g (rw_base e) = true <->
     strictly_inside (RandomWalkEnemy.render e)
       (Player.x (player g)) (Player.y (player g))) /\
  (forall e,
     Enemy.hits_player g (ch_base e) = true <->
     strictly_inside (ChasingEnemy.render e)
       (Player.x (player g)) (Player.y (player g))) /\
  (forall e,
     Enemy.hits_player g (fe_base e) = true <->
     strictly_inside (FencingEnemy.render e)
       (Player.x (player g)) (Player.y (player g))) /\
  (forall b,
     en_size b <= 0 ->
     Enemy.hits_player g b = false /\ Enemy.check_hit g b = g).
Proof.
  do 4 (split; [intros e; apply hits_player_iff_box|]).
  intros b Hz.
  assert (Hh : Enemy.hits_player g b = false).
  { destruct (Enemy.hits_player g b) eqn:Hh; [|reflexivity].
    apply hits_player_spec in Hh. lra. }
  split; [exact Hh|]. unfold Enemy.check_hit. now rewrite Hh.
Qed.

Lemma hit_box_is_drawn_box_witness :
  Enemy.hits_player game0 (mkEnemy 50 250 0 "red" 2) = false.
Proof.
  destruct (hit_box_is_drawn_box game0) as (_ & _ & _ & _ & Hempty).
  apply Hempty. cbn. lra.
Defined.

(** X9.  [Home.contains] holds exactly of the points inside or on the
    edge of the rectangle that [Home.render] draws; a home of negative
    size contains no point, so no player can win at it. *)
Theorem home_region_is_drawn_box (h : Home) (x y : R) :
  (Home.contains h x y = true <-> inside_or_on (Home.render h) x y) /\
  (home_size h < 0 -> Home.contains h x y = false).
Proof.
  split.
  - rewrite Home_contains_spec. unfold inside_or_on, Home.render. tauto.
  - intros Hs. destruct (Home.contains h x y) eqn:Hc; [|reflexivity].
    apply Home_contains_spec in Hc. lra.
Qed.

Lemma home_region_is_drawn_box_witness :
  Home.contains (mkHome 700 250 (-20)) 700 250 = false.
Proof.
  destruct (home_region_is_drawn_box (mkHome 700 250 (-20)) 700 250)
    as (_ & Hneg).
  apply Hneg. cbn. lra.
Defined.

(** ** The fencing enemy *)

Lemma FencingEnemy_update_state (g : TurtleAdventureGame) (e : FencingEnemy) :
  FencingEnemy.update g e =
  (FencingEnemy.state g e,
   Enemy.check_hit g (fe_base (FencingEnemy.state g e))).
Proof. reflexivity. Qed.

(** One step of the round: while the turning line is ahead, the enemy
    moves [speed] towards it along the state's axis; once it is reached
    or passed, the enemy stays and takes the next state. *)
Lemma fence_step (g : TurtleAdventureGame) (e : FencingEnemy) :
  let e' := FencingEnemy.state g e in
  en_speed (fe_base e') = en_speed (fe_base e) /\
  en_size (fe_base e') = en_size (fe_base e) /\
  (0 < fence_remaining g e ->
   fe_state e' = fe_state e /\
   fence_remaining g e' = fence_remaining g e - en_speed (fe_base e) /\
   match fe_state e with
   | Sf_move_right =>
       en_x (fe_base e') = en_x (fe_base e) + en_speed (fe_base e) /\
       en_y (fe_base e') = en_y (fe_base e)
   | Sf_move_up =>
       en_x (fe_base e') = en_x (fe_base e) /\
       en_y (fe_base e') = en_y (fe_base e) - en_speed (fe_base e)
   | Sf_move_left =>
       en_x (fe_base e') = en_x (fe_base e) - en_speed (fe_base e) /\
       en_y (fe_base e') = en_y (fe_base e)
   | Sf_move_down =>
       en_x (fe_base e') = en_x (fe_base e) /\
       en_y (fe_base e') = en_y (fe_base e) + en_speed (fe_base e)
   end) /\
  (fence_remaining g e <= 0 ->
   fe_state e' = fence_next (fe_state e) /\ fe_base e' = fe_base e).
Proof.
  unfold FencingEnemy.state, fence_remaining,
    FencingEnemy.move_right_state, FencingEnemy.move_up_state,
    FencingEnemy.move_left_state, FencingEnemy.move_down_state; cbv zeta.
  destruct e as [b st]; cbn [fe_state fe_base].
  destruct st; destruct (Rltb _ _) eqn:Hc; bool_to_prop;
    cbn [fe_state fe_base set_x set_y en_x en_y en_speed en_size fence_next];
    repeat split; intros; try reflexivity; try lra.
Qed.

(** X10.  A fencing enemy's update moves it by [speed] along one axis
    only, towards the line at which its state turns, and keeps the state;
    or, when that line is reached or passed, keeps the position and takes
    the next state of the round right, up, left, down.  It never skips a
    state, never goes round the other way and never changes speed. *)
Theorem FencingEnemy_round (g : TurtleAdventureGame) (e : FencingEnemy) :
  let e' := fst (FencingEnemy.update g e) in
  en_speed (fe_base e') = en_speed (fe_base e) /\
  (0 < fence_remaining g e ->
   fe_state e' = fe_state e /\
   fence_remaining g e' = fence_remaining g e - en_speed (fe_base e) /\
   match fe_state e with
   | Sf_move_right =>
       en_x (fe_base e') = en_x (fe_base e) + en_speed (fe_base e) /\
       en_y (fe_base e') = en_y (fe_base e)
   | Sf_move_up =>
       en_x (fe_base e') = en_x (fe_base e) /\
       en_y (fe_base e') = en_y (fe_base e) - en_speed (fe_base e)
   | Sf_move_left =>
       en_x (fe_base e') = en_x (fe_base e) - en_speed (fe_base e) /\
       en_y (fe_base e') = en_y (fe_base e)
   | Sf_move_down =>
       en_x (fe_base e') = en_x (fe_base e) /\
       en_y (fe_base e') = en_y (fe_base e) + en_speed (fe_base e)
   end) /\
  (fence_remaining g e <= 0 ->
   fe_state e' = fence_next (fe_state e) /\ fe_base e' = fe_base e).
Proof.
  rewrite FencingEnemy_update_state; cbn [fst].
  destruct (fence_step g e) as (Hs & _ & Hmove & Hturn).
  split; [exact Hs|]. split; assumption.
Qed.

Lemma near_fence_step (g : TurtleAdventureGame) (m : R) (e : FencingEnemy) :
  0 <= en_speed (fe_base e) <= m ->
  near_fence g m e ->
  near_fence g m (FencingEnemy.state g e).
Proof.
  intros Hs (Hx & Hy).
  destruct (fence_step g e) as (_ & _ & Hmove & Hturn).
  destruct (Rlt_le_dec 0 (fence_remaining g e)) as [Hpos|Hneg].
  - destruct (Hmove Hpos) as (_ & _ & Hxy). unfold near_fence.
    unfold fence_remaining in Hpos.
    destruct (fe_state e); destruct Hxy as (-> & ->); lra.
  - destruct (Hturn Hneg) as (_ & Hb). unfold near_fence. rewrite Hb.
    split; assumption.
Qed.

Lemma near_fence_home (g g' : TurtleAdventureGame) (m : R)
    (e : FencingEnemy) :
  home g' = home g -> near_fence g m e -> near_fence g' m e.
Proof. unfold near_fence. now intros ->. Qed.

Lemma FencingEnemy_run_near (n : nat) :
  forall g m e,
    0 <= en_speed (fe_base e) <= m ->
    near_fence g m e ->
    home (snd (FencingEnemy_run n g e)) = home g /\
    en_speed (fe_base (fst (FencingEnemy_run n g e)))
      = en_speed (fe_base e) /\
    near_fence g m (fst (FencingEnemy_run n g e)).
Proof.
  induction n as [|n IH]; intros g m e Hs Hnear.
  - cbn [FencingEnemy_run fst snd].
    split; [reflexivity|]. split; [reflexivity | exact Hnear].
  - change (FencingEnemy_run (S n) g e)
      with (let '(e1, g1) := FencingEnemy.update g e in
            FencingEnemy_run n g1 e1).
    rewrite FencingEnemy_update_state.
    set (e1 := FencingEnemy.state g e).
    set (g1 := Enemy.check_hit g (fe_base e1)).
    destruct (check_hit_player g (fe_base e1)) as (_ & Hh & _).
    fold g1 in Hh.
    destruct (fence_step g e) as (Hsp & _). fold e1 in Hsp.
    destruct (IH g1 m e1) as (IHh & IHs & IHn).
    + now rewrite Hsp.
    + apply (near_fence_home g g1); [exact Hh|].
      now apply near_fence_step.
    + split; [congruence|]. split; [congruence|].
      apply (near_fence_home g1 g); [now symmetry | exact IHn].
Qed.

(** X11.  A fencing enemy of speed between 0 and [m] that is within [m]
    of the 40 x 40 square around the home, on both axes, stays within [m]
    of it through every run of updates: it can pass a turning line by
    less than one step and never strays further. *)
Theorem FencingEnemy_stays_near (n : nat) (g : TurtleAdventureGame)
    (m : R) (e : FencingEnemy) :
  0 <= en_speed (fe_base e) <= m ->
  near_fence g m e ->
  near_fence g m (fst (FencingEnemy_run n g e)).
Proof.
  intros Hs Hnear. now apply FencingEnemy_run_near.
Qed.

Lemma FencingEnemy_stays_near_witness :
  near_fence game0 3 (fst (FencingEnemy_run 100 game0 fencer0)).
Proof.
  assert (Hs : 0 <= en_speed (fe_base fencer0) <= 3) by (cbn; lra).
  assert (Hn : near_fence game0 3 fencer0) by (unfold near_fence; cbn; lra).
  exact (FencingEnemy_stays_near 100 game0 3 fencer0 Hs Hn).
Defined.

Lemma FencingEnemy_created_spec (g : TurtleAdventureGame) (size : R)
    (color : string) (r1 r2 r3 : Z) :
  exists e,
    FencingEnemy.created g size color r1 r2 r3 = Some e /\
    fe_state e = Sf_move_right /\
    en_size (fe_base e) = size /\
    1 <= en_speed (fe_base e) <= 3 /\
    home_x (home g) + 18 <= en_x (fe_base e) <= home_x (home g) + 22 /\
    home_y (home g) + 18 <= en_y (fe_base e) <= home_y (home g) + 22.
Proof.
  unfold FencingEnemy.created.
  destruct (randint_range 1 3 r1) as (v & -> & Hv); [lia|].
  destruct (randint_range 18 22 r2) as (dx & -> & Hdx); [lia|].
  destruct (randint_range 18 22 r3) as (dy & -> & Hdy); [lia|].
  eexists; split; [reflexivity|]. cbn.
  destruct Hv as (Hv1 & Hv2), Hdx as (Hx1 & Hx2), Hdy as (Hy1 & Hy2).
  apply IZR_le in Hv1, Hv2, Hx1, Hx2, Hy1, Hy2.
  repeat split; lra.
Qed.

(** X12.  Whatever the draws, [create] makes a fencing enemy in the
    move-right state with a speed of 1 to 3, 18 to 22 units right of and
    below the home's centre; from there it never gets further than 23
    units from the home's centre on either axis, however long it runs. *)
Theorem FencingEnemy_created_stays (g : TurtleAdventureGame) (size : R)
    (color : string) (r1 r2 r3 : Z) (n : nat) :
  exists e,
    FencingEnemy.created g size color r1 r2 r3 = Some e /\
    fe_state e = Sf_move_right /\
    1 <= en_speed (fe_base e) <= 3 /\
    home_x (home g) + 18 <= en_x (fe_base e) <= home_x (home g) + 22 /\
    home_y (home g) + 18 <= en_y (fe_base e) <= home_y (home g) + 22 /\
    near_fence g 3 (fst (FencingEnemy_run n g e)).
Proof.
  destruct (FencingEnemy_created_spec g size color r1 r2 r3)
    as (e & Hc & Hst & _ & Hs & Hx & Hy).
  exists e. do 5 (split; [assumption|]).
  apply FencingEnemy_run_near; [lra|].
  unfold near_fence. lra.
Qed.





Lemma FencingEnemy_round_witness :
  fe_state (fst (FencingEnemy.update game0 fencer0)) = Sf_move_up /\
  fe_base (fst (FencingEnemy.update game0 fencer0)) = fe_base fencer0.
Proof.
  destruct (FencingEnemy_round game0 fencer0) as (_ & _ & Hturn).
  apply Hturn. cbn. lra.
Defined.

(** ** The diagonal sweep *)

(** The moving branch of the two states, with the division carried
    out. *)
Lemma CrossEnemy_move_down_moving (g : TurtleAdventureGame) (e : CrossEnemy) :
  CrossEnemy.guard_down g e = true ->
  let d := CrossEnemy.delta_down g e in
  let h := CrossEnemy.hypotenuse d in
  let b := ce_base e in
  10 <= h /\
  CrossEnemy.move_down_state g e =
  Some (mkCross
          (mkEnemy (en_x b + en_speed b * (fst d / h))
             (en_y b + en_speed b * (snd d / h))
             (en_size b) (en_color b) (en_speed b))
          (ce_state e) (en_speed b * (fst d / h))
          (en_speed b * (snd d / h))).
Proof.
  intros Hg d h b.
  assert (Hh : 10 <= h).
  { unfold CrossEnemy.guard_down in Hg. bool_to_prop. unfold h, d.
    etransitivity; [|apply hypotenuse_ge_second];
      cbn [snd CrossEnemy.delta_down]; lra. }
  split; [exact Hh|].
  unfold CrossEnemy.move_down_state; cbv zeta. rewrite Hg.
  fold d. fold h. now rewrite !truediv_defined by lra.
Qed.

Lemma CrossEnemy_move_up_moving (g : TurtleAdventureGame) (e : CrossEnemy) :
  CrossEnemy.guard_up e = true ->
  let d := CrossEnemy.delta_up g e in
  let h := CrossEnemy.hypotenuse d in
  let b := ce_base e in
  10 <= h /\
  CrossEnemy.move_up_state g e =
  Some (mkCross
          (mkEnemy (en_x b + en_speed b * (fst d / h))
             (en_y b - en_speed b * (snd d / h))
             (en_size b) (en_color b) (en_speed b))
          (ce_state e) (en_speed b * (fst d / h))
          (en_speed b * (snd d / h))).
Proof.
  intros Hg d h b.
  assert (Hh : 10 <= h).
  { unfold CrossEnemy.guard_up in Hg. bool_to_prop. unfold h, d.
    etransitivity; [|apply hypotenuse_ge_second];
      cbn [snd CrossEnemy.delta_up]; lra. }
  split; [exact Hh|].
  unfold CrossEnemy.move_up_state; cbv zeta. rewrite Hg.
  fold d. fold h. now rewrite !truediv_defined by lra.
Qed.

Lemma hypotenuse_squared (d : R * R) :
  CrossEnemy.hypotenuse d ^ 2 = fst d ^ 2 + snd d ^ 2.
Proof.
  unfold CrossEnemy.hypotenuse.
  set (s := fst d ^ 2 + snd d ^ 2).
  replace (sqrt s ^ 2) with (sqrt s * sqrt s) by ring.
  apply sqrt_sqrt, sum_squares_nonneg.
Qed.

(** One step of the sweep keeps the enemy on the diagonal of its
    state. *)
Lemma on_diagonal_step (g : TurtleAdventureGame) (e : CrossEnemy) :
  on_diagonal g e ->
  exists e',
    CrossEnemy.state g e = Some e' /\
    en_speed (ce_base e') = en_speed (ce_base e) /\
    on_diagonal g e'.
Proof.
  intros Hon. unfold CrossEnemy.state, on_diagonal in *.
  destruct (ce_state e) eqn:Hst.
  - destruct (CrossEnemy.guard_down g e) eqn:Hg.
    + destruct (CrossEnemy_move_down_moving g e Hg) as (Hh & ->).
      eexists; split; [reflexivity|]. split; [reflexivity|].
      cbn [ce_state ce_base en_x en_y]. rewrite Hst.
      cbn [CrossEnemy.delta_down fst snd] in *.
      set (h := CrossEnemy.hypotenuse _) in *.
      set (W := IZR (canvas_width g)) in *.
      set (H := IZR (canvas_height g)) in *.
      set (x := en_x (ce_base e)) in *. set (y := en_y (ce_base e)) in *.
      set (s := en_speed (ce_base e)).
      replace (W - (x + s * ((W - x) / h)))
        with ((W - x) * (1 - s / h)) by (field; lra).
      replace (H - (y + s * ((H - y) / h)))
        with ((H - y) * (1 - s / h)) by (field; lra).
      rewrite Rmult_assoc, (Rmult_comm (1 - s / h) H), <- Rmult_assoc, Hon.
      ring.
    + unfold CrossEnemy.move_down_state; cbv zeta. rewrite Hg.
      eexists; split; [reflexivity|]. split; [reflexivity|].
      cbn. ring.
  - destruct (CrossEnemy.guard_up e) eqn:Hg.
    + destruct (CrossEnemy_move_up_moving g e Hg) as (Hh & ->).
      eexists; split; [reflexivity|]. split; [reflexivity|].
      cbn [ce_state ce_base en_x en_y]. rewrite Hst.
      cbn [CrossEnemy.delta_up fst snd] in *.
      set (h := CrossEnemy.hypotenuse _) in *.
      set (W := IZR (canvas_width g)) in *.
      set (H := IZR (canvas_height g)) in *.
      set (x := en_x (ce_base e)) in *. set (y := en_y (ce_base e)) in *.
      set (s := en_speed (ce_base e)).
      replace (W - (x + s * ((W - x) / h)))
        with ((W - x) * (1 - s / h)) by (field; lra).
      replace (y - s * (y / h)) with (y * (1 - s / h)) by (field; lra).
      rewrite Rmult_assoc, (Rmult_comm (1 - s / h) H), <- Rmult_assoc, Hon.
      ring.
    + unfold CrossEnemy.move_up_state; cbv zeta. rewrite Hg.
      eexists; split; [reflexivity|]. split; [reflexivity|].
      cbn. ring.
Qed.

Lemma on_diagonal_canvas (g g' : TurtleAdventureGame) (e : CrossEnemy) :
  canvas_width g' = canvas_width g ->
  canvas_height g' = canvas_height g ->
  on_diagonal g e -> on_diagonal g' e.
Proof. unfold on_diagonal. now intros -> ->. Qed.

Lemma CrossEnemy_run_on_diagonal (n : nat) :
  forall g e,
    on_diagonal g e ->
    exists e' g',
      CrossEnemy_run n g e = Some (e', g') /\
      en_speed (ce_base e') = en_speed (ce_base e) /\
      on_diagonal g e'.
Proof.
  induction n as [|n IH]; intros g e Hon.
  - exists e, g. now repeat split.
  - cbn [CrossEnemy_run]. unfold CrossEnemy.update.
    destruct (on_diagonal_step g e Hon) as (e1 & -> & Hs1 & Hon1).
    set (g1 := Enemy.check_hit g (ce_base e1)).
    destruct (check_hit_player g (ce_base e1)) as (_ & _ & _ & Hw & Hh).
    fold g1 in Hw, Hh.
    destruct (IH g1 e1) as (e' & g' & Hrun & Hs & Hon').
    + now apply (on_diagonal_canvas g g1).
    + exists e', g'. split; [exact Hrun|]. split; [congruence|].
      apply (on_diagonal_canvas g1 g);
        [now symmetry | now symmetry | exact Hon'].
Qed.

(** X14.  A sweep enemy never leaves its two diagonals.  [create] makes
    it, whatever the draw, at the origin in the move-down state with a
    speed of 10 to 15; from there every run of updates returns normally,
    keeps the speed, and leaves the enemy on the line into the
    bottom-right corner while it moves down and on the line into the
    top-right corner while it moves up. *)
Theorem CrossEnemy_stays_on_diagonals (g : TurtleAdventureGame) (size : R)
    (color : string) (r : Z) (n : nat) :
  exists e e' g',
    CrossEnemy.created size color r = Some e /\
    10 <= en_speed (ce_base e) <= 15 /\
    CrossEnemy_run n g e = Some (e', g') /\
    en_speed (ce_base e') = en_speed (ce_base e) /\
    on_diagonal g e'.
Proof.
  unfold CrossEnemy.created.
  destruct (randint_range 10 15 r) as (v & -> & Hv1 & Hv2); [lia|].
  apply IZR_le in Hv1, Hv2.
  set (e := mkCross (mkEnemy 0 0 size color (IZR v)) Sc_move_down 0 0).
  assert (Hon : on_diagonal g e) by (unfold on_diagonal; cbn; ring).
  destruct (CrossEnemy_run_on_diagonal n g e Hon)
    as (e' & g' & Hrun & Hs & H').
  exists e, e', g'. split; [reflexivity|]. split; [cbn; lra|].
  now repeat split.
Qed.

Lemma unit_step_length (s a b h : R) :
  h <> 0 -> h ^ 2 = a ^ 2 + b ^ 2 ->
  (s * (a / h)) ^ 2 + (s * (b / h)) ^ 2 = s ^ 2.
Proof.
  intros Hh Hsq.
  replace ((s * (a / h)) ^ 2 + (s * (b / h)) ^ 2)
    with (s ^ 2 * ((a ^ 2 + b ^ 2) / h ^ 2)) by (field; exact Hh).
  rewrite <- Hsq. field. exact Hh.
Qed.

(** X15.  While its guard holds, a state of the sweep moves the enemy by
    exactly [speed]: the step it stores in [x_speed] and [y_speed] has
    length [speed], is added to the position (the vertical part
    subtracted when moving up), and the state is kept.  When the guard
    fails, the enemy is put at the left end of the other diagonal, the
    state flips and the stored step is kept. *)
Theorem CrossEnemy_step (g : TurtleAdventureGame) (e : CrossEnemy) :
  (CrossEnemy.guard_down g e = true ->
   exists e',
     CrossEnemy.move_down_state g e = Some e' /\
     ce_state e' = ce_state e /\
     ce_x_speed e' ^ 2 + ce_y_speed e' ^ 2 = en_speed (ce_base e) ^ 2 /\
     en_x (ce_base e') = en_x (ce_base e) + ce_x_speed e' /\
     en_y (ce_base e') = en_y (ce_base e) + ce_y_speed e') /\
  (CrossEnemy.guard_down g e = false ->
   CrossEnemy.move_down_state g e =
   Some (mkCross
           (mkEnemy 0 (IZR (canvas_height g)) (en_size (ce_base e))
              (en_color (ce_base e)) (en_speed (ce_base e)))
           Sc_move_up (ce_x_speed e) (ce_y_speed e))) /\
  (CrossEnemy.guard_up e = true ->
   exists e',
     CrossEnemy.move_up_state g e = Some e' /\
     ce_state e' = ce_state e /\
     ce_x_speed e' ^ 2 + ce_y_speed e' ^ 2 = en_speed (ce_base e) ^ 2 /\
     en_x (ce_base e') = en_x (ce_base e) + ce_x_speed e' /\
     en_y (ce_base e') = en_y (ce_base e) - ce_y_speed e') /\
  (CrossEnemy.guard_up e = false ->
   CrossEnemy.move_up_state g e =
   Some (mkCross
           (mkEnemy 0 0 (en_size (ce_base e)) (en_color (ce_base e))
              (en_speed (ce_base e)))
           Sc_move_down (ce_x_speed e) (ce_y_speed e))).
Proof.
  split; [|split; [|split]].
  - intros Hg. destruct (CrossEnemy_move_down_moving g e Hg) as (Hh & ->).
    eexists; split; [reflexivity|].
    cbn [ce_state ce_x_speed ce_y_speed ce_base en_x en_y].
    split; [reflexivity|]. split; [|split; reflexivity].
    apply unit_step_length; [lra | apply hypotenuse_squared].
  - intros Hg. unfold CrossEnemy.move_down_state; cbv zeta.
    now rewrite Hg.
  - intros Hg. destruct (CrossEnemy_move_up_moving g e Hg) as (Hh & ->).
    eexists; split; [reflexivity|].
    cbn [ce_state ce_x_speed ce_y_speed ce_base en_x en_y].
    split; [reflexivity|]. split; [|split; reflexivity].
    apply unit_step_length; [lra | apply hypotenuse_squared].
  - intros Hg. unfold CrossEnemy.move_up_state; cbv zeta.
    now rewrite Hg.
Qed.

(** The sweep enemy at the origin of the 800 x 500 canvas: its first
    step has length 12. *)
Lemma CrossEnemy_step_witness :
  exists e',
    CrossEnemy.move_down_state game0 sweeper0 = Some e' /\
    ce_x_speed e' ^ 2 + ce_y_speed e' ^ 2 = 12 ^ 2.
Proof.
  destruct (CrossEnemy_step game0 sweeper0) as (Hdown & _).
  assert (Hg : CrossEnemy.guard_down game0 sweeper0 = true).
  { unfold CrossEnemy.guard_down. apply Rleb_true. cbn. lra. }
  destruct (Hdown Hg) as (e' & Hm & _ & Hlen & _).
  exists e'. split; [exact Hm | exact Hlen].
Defined.

(** ** The patrol's speed *)

Lemma choice_factor_le (r : Z) : Random.choice_1_or_1_1 r <= 11 / 10.
Proof. destruct (choice_factor r) as [-> | ->]; lra. Qed.

Lemma DemoEnemy_x_state_growth (g : TurtleAdventureGame) (e : DemoEnemy)
    (r : Z) :
  0 <= en_speed (de_base e) ->
  en_speed (de_base (DemoEnemy.x_state g e r))
    <= en_speed (de_base e) * (11 / 10).
Proof.
  intros Hs. rewrite DemoEnemy_x_state_spec.
  pose proof (choice_factor_le r). pose proof (choice_factor_ge_1 r).
  destruct (past_x_edge _ _); cbn; nra.
Qed.

Lemma DemoEnemy_y_state_growth (g : TurtleAdventureGame) (e : DemoEnemy)
    (r : Z) :
  0 <= en_speed (de_base e) ->
  en_speed (de_base (DemoEnemy.y_state g e r))
    <= en_speed (de_base e) * (11 / 10).
Proof.
  intros Hs. rewrite DemoEnemy_y_state_spec.
  pose proof (choice_factor_le r). pose proof (choice_factor_ge_1 r).
  destruct (past_y_edge _ _); cbn; nra.
Qed.

Lemma DemoEnemy_update_growth (g : TurtleAdventureGame) (e : DemoEnemy)
    (rx ry : Z) :
  0 <= en_speed (de_base e) ->
  en_speed (de_base (fst (DemoEnemy.update g e rx ry)))
    <= en_speed (de_base e) * (121 / 100).
Proof.
  intros Hs. unfold DemoEnemy.update; cbv zeta; cbn [fst].
  pose proof (DemoEnemy_x_state_speed g e rx Hs) as Hx1.
  pose proof (DemoEnemy_x_state_growth g e rx Hs) as Hx2.
  assert (Hs1 : 0 <= en_speed (de_base (DemoEnemy.x_state g e rx))) by lra.
  pose proof (DemoEnemy_y_state_growth g _ ry Hs1) as Hy.
  lra.
Qed.

Lemma DemoEnemy_run_growth (draws : list (Z * Z)) :
  forall g e,
    0 <= en_speed (de_base e) ->
    en_speed (de_base (fst (DemoEnemy_run draws g e)))
      <= en_speed (de_base e) * (121 / 100) ^ List.length draws.
Proof.
  induction draws as [|[rx ry] draws IH]; intros g e Hs;
    cbn [DemoEnemy_run List.length pow].
  - cbn. lra.
  - pose proof (DemoEnemy_update_speed g e rx ry Hs) as Hlo.
    pose proof (DemoEnemy_update_growth g e rx ry Hs) as Hhi.
    destruct (DemoEnemy.update g e rx ry) as [e1 g1]. cbn [fst] in Hlo, Hhi.
    assert (Hs1 : 0 <= en_speed (de_base e1)) by lra.
    specialize (IH g1 e1 Hs1).
    assert (Hp : 0 <= (121 / 100) ^ List.length draws)
      by (apply pow_le; lra).
    nra.
Qed.

(** X16.  A patrol of non-negative speed gains at most 21 percent of
    speed in one update (both axes bouncing, both draws 1.1) and so at
    most the factor [1.21 ^ n] over [n] updates.  In one update it moves
    by its speed on the x axis, and on the y axis by the speed it has
    after the x step, which is 1.1 times the old one when the x step
    bounced on the draw 1.1. *)
Theorem DemoEnemy_speed_growth (g : TurtleAdventureGame) (e : DemoEnemy)
    (draws : list (Z * Z)) (rx ry : Z) :
  0 <= en_speed (de_base e) ->
  let ex := DemoEnemy.x_state g e rx in
  let e' := fst (DemoEnemy.update g e rx ry) in
  en_speed (de_base e') <= en_speed (de_base e) * (121 / 100) /\
  en_speed (de_base (fst (DemoEnemy_run draws g e)))
    <= en_speed (de_base e) * (121 / 100) ^ List.length draws /\
  Rabs (en_x (de_base e') - en_x (de_base e)) = en_speed (de_base e) /\
  Rabs (en_y (de_base e') - en_y (de_base e)) = en_speed (de_base ex) /\
  en_speed (de_base e) <= en_speed (de_base ex)
    <= en_speed (de_base e) * (11 / 10).
Proof.
  intros Hs ex e'.
  pose proof (DemoEnemy_x_state_speed g e rx Hs) as Hx1.
  pose proof (DemoEnemy_x_state_growth g e rx Hs) as Hx2. fold ex in Hx1, Hx2.
  split; [now apply DemoEnemy_update_growth|].
  split; [now apply DemoEnemy_run_growth|].
  split; [|split; [|split; assumption]].
  - unfold e'. rewrite DemoEnemy_update_x.
    destruct (de_x_state e); unfold Rabs; destruct (Rcase_abs _); lra.
  - assert (Hy : en_y (de_base e') = y_moved ex).
    { unfold e', DemoEnemy.update; cbv zeta; cbn [fst]. fold ex.
      rewrite DemoEnemy_y_state_spec. now destruct (past_y_edge _ _). }
    assert (Hyx : en_y (de_base ex) = en_y (de_base e)).
    { unfold ex. rewrite DemoEnemy_x_state_spec.
      now destruct (past_x_edge _ _). }
    rewrite Hy, <- Hyx. unfold y_moved.
    destruct (de_y_state ex); unfold Rabs; destruct (Rcase_abs _); lra.
Qed.

(** The patrol at the right edge with speed 4: after three updates its
    speed is at most 4 * 1.21 ^ 3. *)
Lemma DemoEnemy_speed_growth_witness :
  en_speed (de_base (fst (DemoEnemy_run [(1, 0); (0, 1); (1, 1)]%Z
                            game0 patrol_at_edge)))
    <= 4 * (121 / 100) ^ 3.
Proof.
  assert (Hs : 0 <= en_speed (de_base patrol_at_edge)) by (cbn; lra).
  destruct (DemoEnemy_speed_growth game0 patrol_at_edge
              [(1, 0); (0, 1); (1, 1)]%Z 1 0 Hs) as (_ & Hrun & _).
  exact Hrun.
Defined.

(** ** The generator's waves *)









(** [create_enemy] when the generator's level and the game's level need
    not agree. *)
Lemma create_enemy_two_levels (gen : EnemyGenerator)
    (g : TurtleAdventureGame) :
  EnemyGenerator.create_enemy gen g =
  set_elements g
    (elements g ++
     repeat random_walk_spawn (Z.to_nat (2 * level g - 1)) ++
     repeat chasing_spawn
       (Z.to_nat (Qceiling (inject_Z (gen_level gen) / 3))) ++
     repeat fencing_spawn (Z.to_nat (Qceiling (inject_Z (level g) / 2))) ++
     repeat cross_spawn (Z.to_nat (3 * level g - 2))).
Proof.
  unfold EnemyGenerator.create_enemy, EnemyGenerator.create_random,
    EnemyGenerator.create_chasing, EnemyGenerator.create_fencing,
    EnemyGenerator.create_cross, EnemyGenerator.for_range; cbv zeta.
  rewrite !spawn_loop. unfold set_elements; cbn.
  rewrite <- !app_assoc. reflexivity.
Qed.

(** X19.  [create_enemy] reads the level from two places: the
    random-walk, fencing and cross-sweep counts follow the game's level,
    the chasing count follows the level the generator was constructed
    with.  The wave is appended to the registered elements in that order
    of categories and nothing else of the game changes. *)
Theorem create_enemy_levels (gen : EnemyGenerator)
    (g : TurtleAdventureGame) :
  let g' := EnemyGenerator.create_enemy gen g in
  elements g' =
    elements g ++
    repeat random_walk_spawn (Z.to_nat (2 * level g - 1)) ++
    repeat chasing_spawn
      (Z.to_nat (Qceiling (inject_Z (gen_level gen) / 3))) ++
    repeat fencing_spawn (Z.to_nat (Qceiling (inject_Z (level g) / 2))) ++
    repeat cross_spawn (Z.to_nat (3 * level g - 2)) /\
  Z.of_nat (count_kind KChasing (elements g'))
    = (Z.of_nat (count_kind KChasing (elements g))
       + Z.max 0 (Qceiling (inject_Z (gen_level gen) / 3)))%Z /\
  player g' = player g /\ waypoint g' = waypoint g /\ home g' = home g /\
  timers g' = timers g /\ texts g' = texts g /\ running g' = running g /\
  level g' = level g.
Proof.
  intros g'. unfold g'. rewrite create_enemy_two_levels.
  cbn [elements set_elements player waypoint home timers texts running
       level].
  split; [reflexivity|]. split; [|now repeat split].
  rewrite !count_kind_app, !count_kind_repeat.
  cbn [is_kind EnemyKind_eqb sp_kind random_walk_spawn chasing_spawn
    fencing_spawn cross_spawn]. lia.
Qed.

(** X20.  [create_chasing(num)] works from the level when [num] is
    missing or zero, so a zero behaves as no argument; a negative [num]
    spawns nothing; a positive [num] spawns [ceil(num / 3)] enemies, at
    least one.  Only the list of elements changes. *)
Theorem create_chasing_edges (gen : EnemyGenerator) (num : Q)
    (g : TurtleAdventureGame) :
  let g' := EnemyGenerator.create_chasing gen (Some num) g in
  ((num == 0)%Q -> g' = EnemyGenerator.create_chasing gen None g) /\
  ((num < 0)%Q -> elements g' = elements g) /\
  ((0 < num)%Q ->
   elements g' =
     elements g ++ repeat chasing_spawn (Z.to_nat (Qceiling (num / 3))) /\
   (1 <= Qceiling (num / 3))%Z) /\
  player g' = player g /\ waypoint g' = waypoint g /\ home g' = home g /\
  timers g' = timers g /\ texts g' = texts g /\ running g' = running g.
Proof.
  intros g'. unfold g'. rewrite !create_chasing_elements.
  cbn [elements set_elements player waypoint home timers texts running].
  split; [|split; [|split; [|now repeat split]]].
  - intros H0. unfold chasing_base.
    apply Qeq_bool_iff in H0. now rewrite H0.
  - intros Hneg. unfold chasing_base.
    destruct (Qeq_bool num 0) eqn:Hz.
    + apply Qeq_bool_eq in Hz. rewrite Hz in Hneg.
      now apply Qlt_irrefl in Hneg.
    + assert (Hc : (Qceiling (num / 3) <= 0)%Z).
      { rewrite <- (Qceiling_Z 0). apply Qceiling_resp_le.
        apply Qlt_le_weak in Hneg.
        unfold Qle, Qdiv, Qmult, Qinv in *; cbn in *. nia. }
      replace (Z.to_nat (Qceiling (num / 3))) with 0%nat by lia.
      cbn. apply app_nil_r.
  - intros Hpos. unfold chasing_base.
    destruct (Qeq_bool num 0) eqn:Hz.
    + apply Qeq_bool_eq in Hz. rewrite Hz in Hpos.
      now apply Qlt_irrefl in Hpos.
    + split; [reflexivity|].
      pose proof (Qle_ceiling (num / 3)) as Hc.
      set (c := Qceiling (num / 3)) in *.
      unfold Qlt, Qle, Qdiv, Qmult, Qinv, inject_Z in *; cbn in *. nia.
Qed.

Lemma create_chasing_edges_witness :
  elements (EnemyGenerator.create_chasing (mkGenerator 8)
              (Some (-2 # 1)%Q) game0) = [] /\
  elements (EnemyGenerator.create_chasing (mkGenerator 8)
              (Some (7 # 1)%Q) game0) = repeat chasing_spawn 3.
Proof.
  destruct (create_chasing_edges (mkGenerator 8) (-2 # 1)%Q game0)
    as (_ & Hneg & _).
  destruct (create_chasing_edges (mkGenerator 8) (7 # 1)%Q game0)
    as (_ & _ & Hpos & _).
  split.
  - apply Hneg. reflexivity.
  - destruct (Hpos eq_refl) as (He & _). exact He.
Defined.

Lemma fire_all_four (L : Z) (g : TurtleAdventureGame) :
  level g = L ->
  timers g =
    [mkTask 100 CbCreateEnemy;
     mkTask 10000 (CbCreateChasing (inject_Z L / 4));
     mkTask 10000 (CbCreateChasing (inject_Z L / 4));
     mkTask 10000 (CbCreateChasing (inject_Z L / 4))] ->
  elements (fire_all (mkGenerator L) g) =
    elements g ++ baseline_wave L ++
    repeat chasing_spawn (3 * Z.to_nat (Qceiling (inject_Z L / 12))).
Proof.
  intros Hl Ht. unfold fire_all. rewrite Ht.
  cbn [fold_left task_callback EnemyGenerator.fire].
  rewrite create_enemy_elements by (cbn; now rewrite Hl).
  rewrite !create_chasing_elements.
  cbn [elements set_elements].
  rewrite (Qceiling_comp _ _ (quarter_level_base L)), Hl.
  rewrite <- !app_assoc. do 2 f_equal.
  rewrite <- !repeat_app. f_equal. lia.
Qed.

(** X21.  Once the four timers that [init_game] sets have fired, the
    game's elements are the waypoint, the home and the player, then the
    baseline wave of the level, then three sub-waves of
    [max(0, ceil(level / 12))] chasing enemies each; so the game ends up
    with [max(0, ceil(level / 3)) + 3 * max(0, ceil(level / 12))] chasing
    enemies. *)
Theorem init_game_all_waves (w h L : Z) :
  let gen := fst (init_game w h L) in
  let g := fire_all gen (snd (init_game w h L)) in
  elements g =
    [ElWaypoint; ElHome; ElPlayer] ++ baseline_wave L ++
    repeat chasing_spawn (3 * Z.to_nat (Qceiling (inject_Z L / 12))) /\
  Z.of_nat (count_kind KChasing (elements g))
    = (Z.max 0 (Qceiling (inject_Z L / 3))
       + 3 * Z.max 0 (Qceiling (inject_Z L / 12)))%Z.
Proof.
  intros gen g.
  assert (He : elements g =
    [ElWaypoint; ElHome; ElPlayer] ++ baseline_wave L ++
    repeat chasing_spawn (3 * Z.to_nat (Qceiling (inject_Z L / 12)))).
  { unfold g, gen.
    change (fst (init_game w h L)) with (mkGenerator L).
    rewrite (fire_all_four L); reflexivity. }
  split; [exact He|].
  rewrite He, !count_kind_app, count_kind_repeat.
  destruct (baseline_wave_counts L) as (_ & H2 & _).
  cbn [count_kind filter is_kind List.length chasing_spawn EnemyKind_eqb
       sp_kind]. lia.
Qed.

(** ** The random walk on the canvas *)

Lemma IZR_bounds (v lo hi : Z) :
  (lo <= v <= hi)%Z -> IZR lo <= IZR v <= IZR hi.
Proof. intros (H1 & H2). split; now apply IZR_le. Qed.

Lemma seek_between (x d s lo hi : R) :
  0 <= s -> lo <= x <= hi -> lo <= d <= hi -> lo <= seek x d s <= hi.
Proof.
  intros Hs Hx Hd. destruct (seek_spec x d s Hs) as (_ & _ & _ & Hb). lra.
Qed.

(** X22.  A random-walk enemy of non-negative speed that has not arrived
    gets closer to its destination by [speed] on each axis, down to zero,
    and keeps the destination; when the destination is within one step on
    both axes it lands on it exactly, so that the next update finds it
    arrived. *)
Theorem RandomWalkEnemy_lands (g : TurtleAdventureGame)
    (e : RandomWalkEnemy) (r1 r2 : Z) :
  0 <= en_speed (rw_base e) ->
  RandomWalkEnemy.arrived e = false ->
  exists e' g',
    RandomWalkEnemy.update g e r1 r2 = Some (e', g') /\
    rw_destination e' = rw_destination e /\
    Rabs (IZR (fst (rw_destination e)) - en_x (rw_base e'))
      = Rmax 0 (Rabs (IZR (fst (rw_destination e)) - en_x (rw_base e))
                - en_speed (rw_base e)) /\
    Rabs (IZR (snd (rw_destination e)) - en_y (rw_base e'))
      = Rmax 0 (Rabs (IZR (snd (rw_destination e)) - en_y (rw_base e))
                - en_speed (rw_base e)) /\
    (Rabs (IZR (fst (rw_destination e)) - en_x (rw_base e))
       <= en_speed (rw_base e) ->
     Rabs (IZR (snd (rw_destination e)) - en_y (rw_base e))
       <= en_speed (rw_base e) ->
     RandomWalkEnemy.arrived e' = true).
Proof.
  intros Hs Ha.
  destruct (RandomWalk_update_towards g e r1 r2 (rw_destination e))
    as (g' & Hup); [now rewrite Ha|].
  eexists; exists g'. split; [exact Hup|].
  cbn [rw_destination rw_base en_x en_y].
  split; [reflexivity|].
  pose proof (seek_remaining (en_x (rw_base e))
                (IZR (fst (rw_destination e))) _ Hs) as Hx.
  pose proof (seek_remaining (en_y (rw_base e))
                (IZR (snd (rw_destination e))) _ Hs) as Hy.
  split; [exact Hx|]. split; [exact Hy|].
  intros Hnx Hny. unfold RandomWalkEnemy.arrived.
  cbn [rw_destination rw_base en_x en_y].
  rewrite Rmax_left in Hx, Hy by lra.
  apply Rabs_zero_eq in Hx, Hy.
  apply andb_true_iff; split; apply Reqb_true; congruence.
Qed.

(** X23.  On a canvas of non-negative size, a random-walk enemy never
    leaves the screen: [create] puts it, with a speed of 1 to 5, inside
    the canvas with its destination inside the canvas, and every update of
    an enemy of non-negative speed in that condition succeeds and leaves
    it in that condition, whatever the draws. *)
Theorem RandomWalkEnemy_stays_in_canvas (g : TurtleAdventureGame) :
  (0 <= canvas_width g)%Z -> (0 <= canvas_height g)%Z ->
  (forall size color r1 r2 r3 r4 r5,
     exists e,
       RandomWalkEnemy.created g size color r1 r2 r3 r4 r5 = Some e /\
       1 <= en_speed (rw_base e) <= 5 /\
       walker_in_canvas g e) /\
  (forall e r1 r2,
     0 <= en_speed (rw_base e) ->
     walker_in_canvas g e ->
     exists e' g',
       RandomWalkEnemy.update g e r1 r2 = Some (e', g') /\
       en_speed (rw_base e') = en_speed (rw_base e) /\
       walker_in_canvas g e').
Proof.
  intros Hw Hh. split.
  - intros size color r1 r2 r3 r4 r5. unfold RandomWalkEnemy.created.
    destruct (gen_dest_in_bounds g r1 r2 Hw Hh) as (d & -> & Hdx & Hdy).
    destruct (randint_range 1 5 r3) as (v & -> & Hv); [lia|].
    destruct (randint_range 0 (canvas_width g) r4 Hw) as (x & -> & Hx).
    destruct (randint_range 0 (canvas_height g) r5 Hh) as (y & -> & Hy).
    eexists; split; [reflexivity|].
    apply IZR_bounds in Hv, Hx, Hy, Hdx, Hdy.
    unfold walker_in_canvas, in_canvas; cbn. repeat split; lra.
  - intros e r1 r2 Hs ((Hx & Hy) & (Hdx & Hdy)).
    destruct (gen_dest_in_bounds g r1 r2 Hw Hh) as (nd & Hnd & Hnx & Hny).
    apply IZR_bounds in Hnx, Hny.
    set (d := if RandomWalkEnemy.arrived e then nd else rw_destination e).
    assert (Hd : (if RandomWalkEnemy.arrived e
                  then RandomWalkEnemy.gen_dest g r1 r2
                  else Some (rw_destination e)) = Some d).
    { unfold d. now destruct (RandomWalkEnemy.arrived e). }
    assert (Hin : in_canvas g (IZR (fst d)) (IZR (snd d))).
    { unfold d, in_canvas. destruct (RandomWalkEnemy.arrived e);
        cbn in *; lra. }
    destruct (RandomWalk_update_towards g e r1 r2 d Hd) as (g' & Hup).
    eexists; exists g'. split; [exact Hup|]. split; [reflexivity|].
    destruct Hin as (Hix & Hiy).
    unfold walker_in_canvas, in_canvas.
    cbn [rw_base rw_destination en_x en_y].
    split; [|split; assumption].
    split; apply seek_between; assumption.
Qed.

(** On the 800 x 500 canvas of [game0], the walker at (50, 50) stays
    inside after its update. *)
Lemma RandomWalkEnemy_stays_in_canvas_witness :
  exists e' g',
    RandomWalkEnemy.update game0 walker0 7 9 = Some (e', g') /\
    walker_in_canvas game0 e'.
Proof.
  assert (Hw : (0 <= canvas_width game0)%Z) by (cbn; lia).
  assert (Hh : (0 <= canvas_height game0)%Z) by (cbn; lia).
  destruct (RandomWalkEnemy_stays_in_canvas game0 Hw Hh) as (_ & Hstep).
  assert (Hs : 0 <= en_speed (rw_base walker0)) by (cbn; lra).
  assert (Hin : walker_in_canvas game0 walker0).
  { unfold walker_in_canvas, in_canvas. cbn. lra. }
  destruct (Hstep walker0 7%Z 9%Z Hs Hin) as (e' & g' & Hup & _ & Hin').
  exists e', g'. split; assumption.
Defined.

(** The walker at (50, 50) with its destination at (52, 49), within one
    step of 3 on both axes: it has arrived after the update. *)
Lemma RandomWalkEnemy_lands_witness :
  exists e' g',
    RandomWalkEnemy.update game0 walker1 0 0 = Some (e', g') /\
    RandomWalkEnemy.arrived e' = true.
Proof.
  assert (Hs : 0 <= en_speed (rw_base walker1)) by (cbn; lra).
  assert (Ha : RandomWalkEnemy.arrived walker1 = false).
  { unfold RandomWalkEnemy.arrived. apply andb_false_iff. left.
    apply Reqb_false. cbn. lra. }
  destruct (RandomWalkEnemy_lands game0 walker1 0 0 Hs Ha)
    as (e' & g' & Hup & _ & _ & _ & Hland).
  exists e', g'. split; [exact Hup|].
  apply Hland; cbn; unfold Rabs; destruct (Rcase_abs _); lra.
Defined.

(** ** What an enemy's update does to the game *)

Lemma check_hit_cases (g : TurtleAdventureGame) (b : Enemy) :
  (Enemy.hits_player g b = true /\ Enemy.check_hit g b = game_over_lose g) \/
  (Enemy.hits_player g b = false /\ Enemy.check_hit g b = g).
Proof.
  unfold Enemy.check_hit. destruct (Enemy.hits_player g b); auto.
Qed.

Lemma check_hit_only_lost (g : TurtleAdventureGame) (b : Enemy) :
  only_lost g (Enemy.check_hit g b) b.
Proof.
  unfold only_lost. split; [apply check_hit_cases|].
  unfold Enemy.check_hit. destruct (Enemy.hits_player g b); now repeat split.
Qed.

(** X24.  The only thing the update of an enemy, of any of the five
    variants, does to the game is to lose it: the game it returns is
    [game_over_lose] of the game it was given when the enemy, after its
    move, hits the player, and the very game it was given otherwise.  It
    never moves the player, the waypoint or the home and never registers
    an element or sets a timer. *)
Theorem enemy_update_only_loses (g : TurtleAdventureGame) :
  (forall e rx ry,
     only_lost g (snd (DemoEnemy.update g e rx ry))
       (de_base (fst (DemoEnemy.update g e rx ry)))) /\
  (forall e r1 r2 e' g',
     RandomWalkEnemy.update g e r1 r2 = Some (e', g') ->
     only_lost g g' (rw_base e')) /\
  (forall e,
     only_lost g (snd (ChasingEnemy.update g e))
       (ch_base (fst (ChasingEnemy.update g e)))) /\
  (forall e,
     only_lost g (snd (FencingEnemy.update g e))
       (fe_base (fst (FencingEnemy.update g e)))) /\
  (forall e e' g',
     CrossEnemy.update g e = Some (e', g') ->
     only_lost g g' (ce_base e')).
Proof.
  destruct (variants_share_hit_test g) as (Hd & Hr & Hc & Hf & Hx).
  split; [|split; [|split; [|split]]].
  - intros e rx ry. rewrite Hd. apply check_hit_only_lost.
  - intros e r1 r2 e' g' Hup. rewrite (Hr _ _ _ _ _ Hup).
    apply check_hit_only_lost.
  - intros e. rewrite Hc. apply check_hit_only_lost.
  - intros e. rewrite Hf. apply check_hit_only_lost.
  - intros e e' g' Hup. rewrite (Hx _ _ _ Hup). apply check_hit_only_lost.
Qed.

(** The update of the chaser of [chaser0] leaves the player of [game0]
    where it is. *)
Lemma enemy_update_only_loses_witness :
  player (snd (ChasingEnemy.update game0 chaser0)) = player game0.
Proof.
  destruct (enemy_update_only_loses game0) as (_ & _ & Hc & _).
  destruct (Hc chaser0) as (_ & Hp & _). exact Hp.
Defined.

(** ** A patrol as [create] makes it *)

